(** * Advanced Tic Tac Toe: rules engine and move selectors

    A shallow embedding of the game logic of [Game.jsx]
    ([handleCellClick], [checkWinner], [isDraw], [makeAIMove],
    [getRandomMove], [getMediumMove], [getBestMove], [minimax]) together
    with the properties the specification states about it.

    JavaScript arrays are lists of slots; a slot is a hole of a sparse
    array or holds [undefined], [null] or a player's mark.  The arrays that
    [minimax] mutates in place live in a heap of array objects addressed by
    location, so that a copy ([[...board]]) and the array it was copied
    from are different objects.  Numbers are IEEE-754 doubles, given as
    the rationals they denote; the product in [getRandomMove] is the
    exact product rounded to the nearest double. *)

From Stdlib Require Import ZArith QArith Qround Qpower Lia Lqa Bool.
From stdpp Require Import base option list strings relations.

Local Open Scope nat_scope.

(** ** Data model *)

(** The two marks, the strings ["X"] and ["O"] of the source. *)
Inductive player : Set := X | O.

(** What a slot of a JavaScript array can be in this program. *)
Inductive cell : Set :=
  | Hole                (* an index below [length] that was never written *)
  | Undefined
  | Null                (* an empty cell of the board *)
  | Mark (p : player).

Abbreviation array := (list cell).

#[global] Instance player_eq_dec : EqDecision player.
Proof. solve_decision. Defined.

#[global] Instance cell_eq_dec : EqDecision cell.
Proof. solve_decision. Defined.

(** [currentPlayer === "X" ? "O" : "X"] *)
Definition other (p : player) : player :=
  match p with X => O | O => X end.

(** [arr[i]]: reading a hole or past the end gives [undefined]. *)
Definition get (arr : array) (i : nat) : cell :=
  match arr !! i with
  | Some Hole | None => Undefined
  | Some c => c
  end.

(** Truthiness of a slot value: only the non-empty strings are truthy. *)
Definition truthy (c : cell) : bool :=
  match c with Mark _ => true | _ => false end.

(** [cell === player] *)
Definition is_player (p : player) (c : cell) : bool :=
  match c, p with
  | Mark X, X | Mark O, O => true
  | _, _ => false
  end.

(** [cell === null] *)
Definition is_null (c : cell) : bool :=
  match c with Null => true | _ => false end.

(** [arr.every(f)]: the callback is not called on holes. *)
Definition every (f : cell -> bool) (arr : array) : bool :=
  forallb (fun c => match c with Hole => true | _ => f c end) arr.

(** [[...arr]]: the iterator yields [undefined] for a hole, the copy is
    dense. *)
Definition spread (arr : array) : array :=
  map (fun c => match c with Hole => Undefined | _ => c end) arr.

(** [arr[i] = v]: in range the slot is replaced; past the end the array
    grows to length [i + 1], the slots in between being holes. *)
Definition js_set (arr : array) (i : nat) (v : cell) : array :=
  if i <? length arr then <[i:=v]> arr
  else arr ++ replicate (i - length arr) Hole ++ [v].

(** [Array.from({ length: n }, (_, i) => f(i))] *)
Definition Array_from (n : nat) (f : nat -> cell) : array :=
  map f (seq 0 n).

(** [Array(n).fill(null)] *)
Definition Array_fill_null (n : nat) : array := replicate n Null.

(** ** Win and draw detection *)

(** The helper [checkLine] of [checkWinner]. *)
Definition checkLine (arr : array) (size : nat) (p : player)
    (start step : nat) : bool :=
  every (is_player p) (Array_from size (fun i => get arr (start + i * step))).

(** [checkWinner(arr, size, player)].  A [for] loop that returns [true] at
    its first hit is an [existsb] over the loop's range.  [arr[size - 1]]
    reads index [-1], hence [undefined], when [size] is [0]. *)
Definition checkWinner (arr : array) (size : nat) (p : player) : bool :=
  existsb (fun r => truthy (get arr (r * size)) && checkLine arr size p (r * size) 1)
          (seq 0 size)
  || existsb (fun c => truthy (get arr c) && checkLine arr size p c size)
             (seq 0 size)
  || (truthy (get arr 0) && checkLine arr size p 0 (size + 1))
  || match size with
     | 0 => false
     | S k => truthy (get arr k) && checkLine arr size p k k
     end.

(** [isDraw(arr)], with the [boardSize] of the enclosing component. *)
Definition isDraw (arr : array) (boardSize : nat) : bool :=
  every truthy arr
  && negb (checkWinner arr boardSize X)
  && negb (checkWinner arr boardSize O).

(** ** Scores of the search: JavaScript numbers including the infinities *)

Inductive score : Set := NegInf | Fin (z : Z) | PosInf.

(** [Math.max] *)
Definition smax (a b : score) : score :=
  match a, b with
  | PosInf, _ | _, PosInf => PosInf
  | NegInf, s | s, NegInf => s
  | Fin x, Fin y => Fin (Z.max x y)
  end.

(** [Math.min] *)
Definition smin (a b : score) : score :=
  match a, b with
  | NegInf, _ | _, NegInf => NegInf
  | PosInf, s | s, PosInf => s
  | Fin x, Fin y => Fin (Z.min x y)
  end.

(** [a > b] *)
Definition sgt (a b : score) : bool :=
  match a, b with
  | NegInf, _ | _, PosInf => false
  | _, NegInf | PosInf, _ => true
  | Fin x, Fin y => (y <? x)%Z
  end.

(** The order on scores as a proposition: [sle a b] is [a <= b]. *)
Definition sle (a b : score) : Prop := sgt a b = false.
Definition slt (a b : score) : Prop := sgt b a = true.

(** ** The heap of array objects *)

Abbreviation loc := nat (only parsing).
Abbreviation heap := (list (list cell)).

(** The array object a reference points to. *)
Definition deref (h : heap) (l : loc) : array := default [] (h !! l).

(** A new array object; its location is fresh. *)
Definition alloc (h : heap) (a : array) : loc * heap := (length h, h ++ [a]).

(** [arr[i] = v] on the object at [l]. *)
Definition store (h : heap) (l : loc) (i : nat) (v : cell) : heap :=
  match h !! l with
  | Some a => <[l:=js_set a i v]> h
  | None => h
  end.

(** A [for] loop over the indices [idxs] whose body may fail; the loop
    state is threaded through the iterations. *)
Fixpoint for_each {S : Type} (idxs : list nat)
    (body : nat -> S -> option S) (s : S) : option S :=
  match idxs with
  | [] => Some s
  | i :: rest =>
      match body i s with
      | Some s' => for_each rest body s'
      | None => None
      end
  end.

(** ** The exhaustive search *)

(** [minimax(arr, depth, isMaximizing)] on the array object at [arr].  The
    result is the score together with the heap at return; [None] is running
    out of [fuel], which bounds the depth of the recursion.  The loop bound
    [arr.length] is read once: the stores of the loop body are in range and
    keep the length. *)
Fixpoint minimax (boardSize : nat) (fuel : nat) (h : heap) (arr : loc)
    (depth : Z) (isMaximizing : bool) : option (score * heap) :=
  match fuel with
  | 0 => None
  | S fuel' =>
      if checkWinner (deref h arr) boardSize O then Some (Fin (10 - depth), h)
      else if checkWinner (deref h arr) boardSize X then Some (Fin (depth - 10), h)
      else if every truthy (deref h arr) then Some (Fin 0, h)
      else if isMaximizing then
        for_each (seq 0 (length (deref h arr)))
          (fun i '(best, h) =>
             if is_null (get (deref h arr) i) then
               match minimax boardSize fuel' (store h arr i (Mark O)) arr
                             (depth + 1) false with
               | Some (s, h') => Some (smax best s, store h' arr i Null)
               | None => None
               end
             else Some (best, h))
          (NegInf, h)
      else
        for_each (seq 0 (length (deref h arr)))
          (fun i '(best, h) =>
             if is_null (get (deref h arr) i) then
               match minimax boardSize fuel' (store h arr i (Mark X)) arr
                             (depth + 1) true with
               | Some (s, h') => Some (smin best s, store h' arr i Null)
               | None => None
               end
             else Some (best, h))
          (PosInf, h)
  end.

(** [getBestMove()] for the board object at [board]: the chosen move
    ([None] is [null]) and the heap at return.  Every candidate is tried on
    a fresh copy [newBoard]. *)
Definition getBestMove_heap (boardSize : nat) (h : heap) (board : loc)
    : option (option nat * heap) :=
  match
    for_each (seq 0 (length (deref h board)))
      (fun i '(bestScore, move, h) =>
         if is_null (get (deref h board) i) then
           let '(newBoard, h1) := alloc h (spread (deref h board)) in
           let h2 := store h1 newBoard i (Mark O) in
           match minimax boardSize (S (length (deref h2 newBoard))) h2 newBoard
                         0 false with
           | Some (s, h3) =>
               if sgt s bestScore then Some (s, Some i, h3)
               else Some (bestScore, move, h3)
           | None => None
           end
         else Some (bestScore, move, h))
      (NegInf, None, h)
  with
  | Some (_, move, h') => Some (move, h')
  | None => None
  end.

(** ** Component state and the click handler *)

(** [winnerMsg]: the empty string, the win announcement of a player, or the
    draw announcement. *)
Inductive message : Set := NoMsg | WinsMsg (p : player) | DrawMsg.

Record GameState : Set := mkState {
  board : array;
  currentPlayer : player;
  scoreX : nat;
  scoreO : nat;
  gameActive : bool;
  isAIMode : bool;
  boardSize : nat;
  aiDifficulty : string;
  winnerMsg : message
}.

(** [BOARD_SIZES] *)
Definition BOARD_SIZES : list nat := [3; 4; 5].

(** The state after [resetGame()] (also the effect run when [boardSize]
    changes). *)
Definition resetGame (s : GameState) : GameState :=
  mkState (Array_fill_null (boardSize s * boardSize s)) X
          (scoreX s) (scoreO s) true (isAIMode s) (boardSize s)
          (aiDifficulty s) NoMsg.

(** [setBoardSize(n)] followed by the effect on [[boardSize]]: the effect
    runs, and resets the game, when the size has changed; setting the
    size the component already has leaves the state as it is. *)
Definition setBoardSize (n : nat) (s : GameState) : GameState :=
  if n =? boardSize s then s
  else mkState (Array_fill_null (n * n)) X (scoreX s) (scoreO s) true
               (isAIMode s) n (aiDifficulty s) NoMsg.

(** The state a freshly mounted component starts in, at a given size,
    mode and difficulty. *)
Definition newGame (size : nat) (ai : bool) (difficulty : string) : GameState :=
  mkState (Array_fill_null (size * size)) X 0 0 true ai size difficulty NoMsg.

(** [handleCellClick(idx)] *)
Definition handleCellClick (s : GameState) (idx : nat) : GameState :=
  if negb (gameActive s) || truthy (get (board s) idx) then s
  else
    let p := currentPlayer s in
    let nextBoard := js_set (spread (board s)) idx (Mark p) in
    if checkWinner nextBoard (boardSize s) p then
      mkState nextBoard p
              (match p with X => S (scoreX s) | O => scoreX s end)
              (match p with X => scoreO s | O => S (scoreO s) end)
              false (isAIMode s) (boardSize s) (aiDifficulty s) (WinsMsg p)
    else if isDraw nextBoard (boardSize s) then
      mkState nextBoard p (scoreX s) (scoreO s) false (isAIMode s)
              (boardSize s) (aiDifficulty s) DrawMsg
    else
      mkState nextBoard (other p) (scoreX s) (scoreO s) (gameActive s)
              (isAIMode s) (boardSize s) (aiDifficulty s) (winnerMsg s).

(** ** The three selectors *)

(** The list [empty] of [getRandomMove]: [map] leaves holes in place and
    [filter] drops them together with the [null] entries. *)
Definition emptyIndices (b : array) : list nat :=
  omap id (imap (fun i c => if is_null c then Some i else None) b).

(** *** Numbers

    A Number of the source is an IEEE-754 double: a rational [m / 2^k]
    with [m < 2^53] and [k <= 1074].  The product [a * b] of two Numbers
    is the exact product rounded to the nearest Number, ties going to the
    even significand. *)

(** The exponent [k] that brings a positive [x] into the range of the
    53-bit significands: [2^52 <= x * 2^k < 2^53]. *)
Definition binade (x : Q) : Z :=
  let k := (52 - Z.log2 (Qnum x) + Z.log2 (Zpos (Qden x)))%Z in
  if Qle_bool (2 ^ 52) (x * 2 ^ k) then k else (k + 1)%Z.

(** The Numbers next to a positive [x] are the multiples of
    [2^-(quantum x)]; below [2^-1022] the spacing stays at [2^-1074]. *)
Definition quantum (x : Q) : Z := Z.min (binade x) 1074.

(** The integer nearest to [y], the even one of the two when [y] lies
    half way. *)
Definition nearestEven (y : Q) : Z :=
  let m := Qfloor y in
  match (y - inject_Z m ?= 1 # 2)%Q with
  | Lt => m
  | Gt => (m + 1)%Z
  | Eq => if Z.even m then m else (m + 1)%Z
  end.

(** The largest Number that is not above [x], for [x] below [2^1024];
    it is [x] when [x] is a Number. *)
Definition roundDown (x : Q) : Q :=
  if Qle_bool x 0 then 0%Q
  else (inject_Z (Qfloor (x * 2 ^ quantum x)) / 2 ^ quantum x)%Q.

(** The Number nearest to a positive [x] below [2^1024]. *)
Definition roundPos (x : Q) : Q :=
  (inject_Z (nearestEven (x * 2 ^ quantum x)) / 2 ^ quantum x)%Q.

(** The result of an arithmetic operation whose exact value is [x]. *)
Definition roundNearest (x : Q) : Q :=
  match (x ?= 0)%Q with
  | Eq => 0%Q
  | Gt => roundPos x
  | Lt => (- roundPos (- x))%Q
  end.

(** [Math.random()]: the generator draws [u] from [[0, 1)] and the call
    returns a Number, the one at or next below [u]; every Number in
    [[0, 1)] is returned for the draw that equals it. *)
Definition Math_random (u : Q) : Q := roundDown u.

(** [Math.floor(Math.random() * n)] for a draw [u]; the length [n] of an
    array is a Number as it stands. *)
Definition floorMul (u : Q) (n : nat) : nat :=
  Z.to_nat (Qfloor (roundNearest (Math_random u * inject_Z (Z.of_nat n)))).

(** [getRandomMove()]; [u] is the draw behind the one call of
    [Math.random()], a number in [[0, 1)]. *)
Definition getRandomMove (u : Q) (s : GameState) : option nat :=
  let empty := emptyIndices (board s) in
  if length empty =? 0 then None
  else empty !! floorMul u (length empty).

(** The test of the first two loops of [getMediumMove]: cell [i] is empty
    and [p] wins on the copy with [p]'s mark at [i]. *)
Definition completes (s : GameState) (p : player) (i : nat) : bool :=
  is_null (get (board s) i)
  && checkWinner (js_set (spread (board s)) i (Mark p)) (boardSize s) p.

(** [getMediumMove()] *)
Definition getMediumMove (u : Q) (s : GameState) : option nat :=
  match find (completes s O) (seq 0 (length (board s))) with
  | Some i => Some i
  | None =>
      match find (completes s X) (seq 0 (length (board s))) with
      | Some i => Some i
      | None =>
          let center := (boardSize s * boardSize s) / 2 in
          if is_null (get (board s) center) then Some center
          else getRandomMove u s
      end
  end.

(** [getBestMove()]: the search runs on a heap that holds the board object
    of the state. *)
Definition getBestMove (s : GameState) : option nat :=
  match getBestMove_heap (boardSize s) [board s] 0 with
  | Some (move, _) => move
  | None => None
  end.

(** The value of the variable [aiMove] of [makeAIMove]. *)
Definition aiMove (u : Q) (s : GameState) : option nat :=
  if String.eqb (aiDifficulty s) "easy" then getRandomMove u s
  else if String.eqb (aiDifficulty s) "medium" then getMediumMove u s
  else if String.eqb (aiDifficulty s) "hard" then getBestMove s
  else getRandomMove u s.

(** [makeAIMove()] *)
Definition makeAIMove (u : Q) (s : GameState) : GameState :=
  match aiMove u s with
  | Some i => handleCellClick s i
  | None => s
  end.

(** ** Lines of the board, as the specification describes them *)

(** Row-major indexing: cell (r, c) is at index [r * size + c]. *)
Definition cellIndex (size r c : nat) : nat := r * size + c.

Definition rowLine (size r : nat) : list nat :=
  map (fun c => cellIndex size r c) (seq 0 size).

Definition colLine (size c : nat) : list nat :=
  map (fun r => cellIndex size r c) (seq 0 size).

Definition mainDiagonal (size : nat) : list nat :=
  map (fun i => cellIndex size i i) (seq 0 size).

Definition antiDiagonal (size : nat) : list nat :=
  map (fun i => cellIndex size i (size - 1 - i)) (seq 0 size).

(** The candidate lines in the order rows, columns, main diagonal,
    anti-diagonal. *)
Definition candidateLines (size : nat) : list (list nat) :=
  map (rowLine size) (seq 0 size) ++ map (colLine size) (seq 0 size)
  ++ [mainDiagonal size; antiDiagonal size].

(** Every cell of the line holds [p]'s mark. *)
Definition lineFull (arr : array) (p : player) (line : list nat) : bool :=
  forallb (fun i => is_player p (get arr i)) line.

(** [p] fully occupies one of the candidate lines. *)
Definition hasLine (arr : array) (size : nat) (p : player) : Prop :=
  exists line, line ∈ candidateLines size /\
    forall i, i ∈ line -> arr !! i = Some (Mark p).

(** ** The search as the specification describes it *)

(** A board in the sense of the data model: every cell is empty or holds
    a mark. *)
Definition isBoard (b : array) : Prop :=
  Forall (fun c => c = Null \/ exists p, c = Mark p) b.

(** The indices of the empty cells, in scan order. *)
Definition emptyCells (b : array) : list nat :=
  List.filter (fun i => is_null (get b i)) (seq 0 (length b)).

(** The board with [p]'s mark placed at [i]. *)
Definition place (b : array) (i : nat) (p : player) : array := <[i:=Mark p]> b.

(** The recursive evaluation of a position for the side [ai]: a win of
    [ai] scores [10 - depth], a win of the opponent [depth - 10], a full
    board without a winner [0]; otherwise [ai] maximises and the opponent
    minimises over the positions one ply ahead.  [plies] bounds the number
    of plies looked ahead; the number of empty cells is enough. *)
Fixpoint specMinimax (ai : player) (size plies : nat) (b : array)
    (depth : Z) (maximizing : bool) : score :=
  if checkWinner b size ai then Fin (10 - depth)
  else if checkWinner b size (other ai) then Fin (depth - 10)
  else if every truthy b then Fin 0
  else
    match plies with
    | 0 => if maximizing then NegInf else PosInf
    | S n =>
        if maximizing then
          foldr smax NegInf
            (map (fun i => specMinimax ai size n (place b i ai) (depth + 1) false)
                 (emptyCells b))
        else
          foldr smin PosInf
            (map (fun i => specMinimax ai size n (place b i (other ai))
                                       (depth + 1) true)
                 (emptyCells b))
    end.

(** The first candidate with the highest score. *)
Fixpoint firstMax (scored : list (nat * score)) : option (nat * score) :=
  match scored with
  | [] => None
  | (i, v) :: rest =>
      match firstMax rest with
      | Some (j, w) => if sgt w v then Some (j, w) else Some (i, v)
      | None => Some (i, v)
      end
  end.

(** Modelled from the spec: the hard selector for either side.  The source
    has it for the side [O] only ([getBestMove]); this is
    [selectMove(board, size, hard, aiSide, humanSide)] of the
    specification: every empty cell is tried with the mark of [ai], the
    resulting position is evaluated with the opponent to move, and the
    first candidate with the highest score is selected. *)
Definition specSelectHard (ai : player) (size : nat) (b : array) : option nat :=
  fst <$> firstMax
    (map (fun i => (i, specMinimax ai size (length b) (place b i ai) 0 false))
         (emptyCells b)).

(** ** Evaluation on the 3x3 board

    The same functions for side length 3 in a form that evaluates
    quickly: the eight lines are written out and the positions one ply
    ahead are produced in one pass over the board.  They are proved equal
    to the definitions above and serve to run whole games. *)

Definition wins3 (p : player) (b : array) : bool :=
  match b with
  | [c0; c1; c2; c3; c4; c5; c6; c7; c8] =>
      let m := is_player p in
      (m c0 && (m c1 && m c2))
      || ((m c3 && (m c4 && m c5))
      || ((m c6 && (m c7 && m c8))
      || ((m c0 && (m c3 && m c6))
      || ((m c1 && (m c4 && m c7))
      || ((m c2 && (m c5 && m c8))
      || ((m c0 && (m c4 && m c8))
      || (m c2 && (m c4 && m c6))))))))
  | _ => checkWinner b 3 p
  end.

(** The boards with [p]'s mark on one more cell, in scan order of the
    cell. *)
Fixpoint successors (p : player) (b : array) : list array :=
  match b with
  | [] => []
  | c :: rest =>
      (if is_null c then [Mark p :: rest] else [])
      ++ map (cons c) (successors p rest)
  end.

Fixpoint fastMinimax (ai : player) (plies : nat) (b : array)
    (depth : Z) (maximizing : bool) : score :=
  if wins3 ai b then Fin (10 - depth)
  else if wins3 (other ai) b then Fin (depth - 10)
  else if every truthy b then Fin 0
  else
    match plies with
    | 0 => if maximizing then NegInf else PosInf
    | S n =>
        if maximizing then
          foldr smax NegInf
            (map (fun b' => fastMinimax ai n b' (depth + 1) false)
                 (successors ai b))
        else
          foldr smin PosInf
            (map (fun b' => fastMinimax ai n b' (depth + 1) true)
                 (successors (other ai) b))
    end.

(** [specSelectHard] at size 3. *)
Definition fastSelectHard (ai : player) (b : array) : option nat :=
  fst <$> firstMax
    (map (fun i => (i, fastMinimax ai (length b) (place b i ai) 0 false))
         (emptyCells b)).

(** The score [getBestMove] obtains for the candidate [i]: the evaluation
    of the copy of the board with [O]'s mark at [i], [X] to move. *)
Definition candidateScore (size : nat) (b : array) (i : nat) : score :=
  specMinimax O size (length b) (js_set (spread b) i (Mark O)) 0 false.

(** The update of [bestScore] and [move] in the loop of [getBestMove]. *)
Definition keepBest (f : nat -> score) (st : score * option nat) (i : nat)
    : score * option nat :=
  let v := f i in
  if sgt v (fst st) then (v, Some i) else st.

(** [getBestMove] at size 3. *)
Definition fastBestMove (b : array) : option nat :=
  snd (fold_left
         (keepBest (fun i => fastMinimax O (length b)
                               (js_set (spread b) i (Mark O)) 0 false))
         (emptyCells b) (NegInf, None)).

(** The hard selectors, evaluated the quick way where the board has side
    length 3. *)
Definition quickBestMove (s : GameState) : option nat :=
  if boardSize s =? 3 then fastBestMove (board s) else getBestMove s.

Definition quickSelectHard (ai : player) (s : GameState) : option nat :=
  if boardSize s =? 3 then fastSelectHard ai (board s)
  else specSelectHard ai (boardSize s) (board s).

(** ** Calls as the caller observes them *)

(** The error kinds of the specification.  The source declares none. *)
Inductive engineError : Set := IllegalMove | InvalidConfiguration.

(** How a call ends: it returns, or it throws. *)
Inductive completion : Set :=
  | Returns (s : GameState)
  | Throws (err : engineError).

(** [handleCellClick(idx)] seen from its caller.  The body has no [throw]
    and calls nothing that throws: every call returns. *)
Definition applyMove (s : GameState) (idx : nat) : completion :=
  Returns (handleCellClick s idx).

(** ** Games *)

(** [toggleAIMode()] *)
Definition toggleAIMode (s : GameState) : GameState :=
  mkState (Array_fill_null (boardSize s * boardSize s)) X
          (scoreX s) (scoreO s) true (negb (isAIMode s)) (boardSize s)
          (aiDifficulty s) NoMsg.

(** [setAIDifficulty(d)] *)
Definition setAIDifficulty (d : string) (s : GameState) : GameState :=
  mkState (board s) (currentPlayer s) (scoreX s) (scoreO s) (gameActive s)
          (isAIMode s) (boardSize s) d (winnerMsg s).

(** The state of the component when it is mounted. *)
Definition mounted : GameState := newGame 3 false "easy".

(** The states the component can be in: it is mounted, and then cells are
    clicked, the automated player moves when it is its turn, the game is
    restarted, and the size, the mode and the difficulty are changed. *)
Inductive reachable : GameState -> Prop :=
  | reach_mounted : reachable mounted
  | reach_click s idx : reachable s -> reachable (handleCellClick s idx)
  | reach_ai s u :
      reachable s -> isAIMode s = true -> currentPlayer s = O ->
      gameActive s = true -> reachable (makeAIMove u s)
  | reach_reset s : reachable s -> reachable (resetGame s)
  | reach_size s n : reachable s -> n ∈ BOARD_SIZES -> reachable (setBoardSize n s)
  | reach_toggle s : reachable s -> reachable (toggleAIMode s)
  | reach_difficulty s d : reachable s -> reachable (setAIDifficulty d s).

(** The invariant of the reachable states: no two players have a line,
    and while the game goes on nobody has. *)
Definition linesConsistent (s : GameState) : Prop :=
  0 < boardSize s
  /\ (gameActive s = true -> forall p, ~ hasLine (board s) (boardSize s) p)
  /\ (forall p, hasLine (board s) (boardSize s) p ->
        ~ hasLine (board s) (boardSize s) (other p)).

(** One move of a game against the hard opponent: [X] plays any legal
    move, [O]'s move is made by [makeAIMove] at difficulty hard. *)
Inductive hardStep : GameState -> GameState -> Prop :=
  | hard_human s idx :
      gameActive s = true -> currentPlayer s = X ->
      board s !! idx = Some Null -> hardStep s (handleCellClick s idx)
  | hard_ai s u :
      gameActive s = true -> currentPlayer s = O ->
      isAIMode s = true -> aiDifficulty s = "hard" ->
      hardStep s (makeAIMove u s).

(** The verdict on a state of such a game: [X] has no line and has not been
    announced as winner, a finished game was won by [O] or drawn, and a
    game that goes on has an empty cell and the hard opponent switched
    on. *)
Definition notLost (s : GameState) : bool :=
  negb (checkWinner (board s) (boardSize s) X)
  && match winnerMsg s with
     | WinsMsg X => false
     | WinsMsg O =>
         negb (gameActive s) && checkWinner (board s) (boardSize s) O
     | DrawMsg => negb (gameActive s) && isDraw (board s) (boardSize s)
     | NoMsg =>
         gameActive s && negb (length (emptyCells (board s)) =? 0)
         && isAIMode s && String.eqb (aiDifficulty s) "hard"
     end.

(** Exhaustive exploration of the games against the hard opponent that
    start in [s], at most [n - 1] moves deep: every state met passes
    [notLost] and the games are over before the bound. *)
Fixpoint exploreHard (n : nat) (s : GameState) : bool :=
  match n with
  | 0 => false
  | S n' =>
      notLost s
      && (if gameActive s then
            match currentPlayer s with
            | X =>
                forallb
                  (fun idx =>
                     if is_null (get (board s) idx)
                     then exploreHard n' (handleCellClick s idx) else true)
                  (seq 0 (length (board s)))
            | O =>
                if isAIMode s && String.eqb (aiDifficulty s) "hard"
                then
                  exploreHard n'
                    (match quickBestMove s with
                     | Some i => handleCellClick s i
                     | None => s
                     end)
                else true
            end
          else true)
  end.

(** One move of a game in which both sides search: [X] plays the move of
    the hard selector for the side [X], [O] the move of [makeAIMove] at
    difficulty hard. *)
Inductive searchStep : GameState -> GameState -> Prop :=
  | search_X s i :
      gameActive s = true -> currentPlayer s = X ->
      specSelectHard X (boardSize s) (board s) = Some i ->
      searchStep s (handleCellClick s i)
  | search_O s u :
      gameActive s = true -> currentPlayer s = O ->
      isAIMode s = true -> aiDifficulty s = "hard" ->
      searchStep s (makeAIMove u s).

(** The move [searchStep] makes from a state of a game that goes on, as a
    function. *)
Definition searchMove (s : GameState) : option GameState :=
  match currentPlayer s with
  | X =>
      match quickSelectHard X s with
      | Some i => Some (handleCellClick s i)
      | None => None
      end
  | O =>
      if isAIMode s && String.eqb (aiDifficulty s) "hard"
      then Some (match quickBestMove s with
                 | Some i => handleCellClick s i
                 | None => s
                 end)
      else None
  end.

(** The states of the game in which both sides search, from [s] on, until
    the game is over or [n] states are listed. *)
Fixpoint searchTrace (n : nat) (s : GameState) : list GameState :=
  match n with
  | 0 => []
  | S n' =>
      s :: (if gameActive s then
              match searchMove s with
              | Some s' => searchTrace n' s'
              | None => []
              end
            else [])
  end.

(** The game in which both sides search is over within [n - 1] moves, and
    each of its states is either going on or a draw. *)
Definition searchEndsInDraw (n : nat) (s : GameState) : bool :=
  let trace := searchTrace n s in
  (length trace <? n)
  && forallb
       (fun s' =>
          gameActive s'
          || (match winnerMsg s' with DrawMsg => true | _ => false end
              && isDraw (board s') (boardSize s')))
       trace
  && existsb (fun s' => negb (gameActive s')) trace.

(** ** Play through the rendered board *)

(** The number of cells that hold [p]'s mark. *)
Definition marksOf (p : player) (b : array) : nat :=
  length (List.filter (is_player p) b).

(** [PLAYER_COLORS] *)
Definition PLAYER_COLORS (p : player) : string :=
  match p with X => "#e74c3c" | O => "#3498db" end.

(** What [renderBoard] makes of one cell: the [key], which is also the
    index its [onClick] hands to [handleCellClick], the parts of the style
    that depend on the state, and the text shown. *)
Record cellView : Set := mkView {
  viewKey : nat;
  viewCursor : string;
  viewBackground : string;
  viewColor : string;
  viewText : cell
}.

(** [renderBoard()]: [board.map((cell, i) => <div .../>)]; [map] leaves the
    holes of the array in place. *)
Definition renderBoard (s : GameState) : list (option cellView) :=
  imap
    (fun i c =>
       match c with
       | Hole => None
       | _ =>
           Some (mkView i
                   (if truthy c || negb (gameActive s)
                    then "not-allowed" else "pointer")
                   (if truthy c then
                      if is_player X c then "rgba(231, 76, 60, 0.15)"
                      else "rgba(52, 152, 219, 0.15)"
                    else "rgba(255,255,255,0.2)")
                   (match c with Mark p => PLAYER_COLORS p | _ => "#333" end)
                   c)
       end)
    (board s).

(** The states reached through the rendered page: the clicks are those of
    the rendered cells, whose indices are below the length of the board,
    and the automated player moves when its effect fires. *)
Inductive played : GameState -> Prop :=
  | played_mounted : played mounted
  | played_click s idx :
      played s -> idx < length (board s) -> played (handleCellClick s idx)
  | played_ai s u :
      played s -> isAIMode s = true -> currentPlayer s = O ->
      gameActive s = true -> (0 <= u < 1)%Q -> played (makeAIMove u s)
  | played_reset s : played s -> played (resetGame s)
  | played_size s n : played s -> n ∈ BOARD_SIZES -> played (setBoardSize n s)
  | played_toggle s : played s -> played (toggleAIMode s)
  | played_difficulty s d : played s -> played (setAIDifficulty d s).

(** The announcement agrees with the board. *)
Definition statusConsistent (s : GameState) : Prop :=
  match winnerMsg s with
  | NoMsg =>
      gameActive s = true
      /\ checkWinner (board s) (boardSize s) X = false
      /\ checkWinner (board s) (boardSize s) O = false
      /\ every truthy (board s) = false
  | WinsMsg p =>
      gameActive s = false
      /\ checkWinner (board s) (boardSize s) p = true
      /\ checkWinner (board s) (boardSize s) (other p) = false
      /\ currentPlayer s = p
  | DrawMsg =>
      gameActive s = false /\ isDraw (board s) (boardSize s) = true
  end.

(** Whether the last mark placed was an [X]: while the game goes on the
    turn has passed to the other player, when it is over it has not. *)
Definition xMovedLast (s : GameState) : bool :=
  match currentPlayer s with
  | X => negb (gameActive s)
  | O => gameActive s
  end.

(** [X] has as many marks as [O], and one more after its own move. *)
Definition turnParity (s : GameState) : Prop :=
  marksOf X (board s)
  = marksOf O (board s) + (if xMovedLast s then 1 else 0).

(** The invariant of the states reached through the rendered page. *)
Definition wellPlayed (s : GameState) : Prop :=
  boardSize s ∈ BOARD_SIZES
  /\ isBoard (board s)
  /\ length (board s) = boardSize s * boardSize s
  /\ statusConsistent s
  /\ turnParity s.

(** A click on a rendered cell that changes the state. *)
Definition acceptedClick (s s' : GameState) : Prop :=
  exists idx, idx < length (board s) /\ s' = handleCellClick s idx /\ s' <> s.

(** Closes [isBoard] on an explicit list of cells. *)
Ltac solve_isBoard :=
  unfold isBoard; simpl;
  repeat first
    [ apply Forall_nil_2
    | apply Forall_cons_2;
      [first [by left | right; eexists; reflexivity]|] ].

(** * Properties *)

(** ** Arrays *)

Section Arrays.
Implicit Types (arr : array) (i j : nat) (v c : cell) (p : player).

Lemma get_Mark arr i p : get arr i = Mark p <-> arr !! i = Some (Mark p).
Proof.
  unfold get. destruct (arr !! i) as [[]|]; split; intros H;
    try discriminate; congruence.
Qed.

Lemma get_Null arr i : get arr i = Null <-> arr !! i = Some Null.
Proof.
  unfold get. destruct (arr !! i) as [[]|]; split; intros H;
    try discriminate; congruence.
Qed.

Lemma is_player_true p c : is_player p c = true <-> c = Mark p.
Proof.
  destruct c as [| | |[]], p; simpl; split; intros; congruence.
Qed.

Lemma is_null_true c : is_null c = true <-> c = Null.
Proof. destruct c; simpl; split; intros; congruence. Qed.

Lemma truthy_true c : truthy c = true <-> exists p, c = Mark p.
Proof.
  destruct c; simpl; split; try discriminate; eauto;
    intros [q Hq]; discriminate.
Qed.

Lemma is_player_truthy p c : is_player p c = true -> truthy c = true.
Proof. destruct c as [| | |[]], p; simpl; auto. Qed.

Lemma length_spread arr : length (spread arr) = length arr.
Proof. apply length_map. Qed.

Lemma get_spread arr i : get (spread arr) i = get arr i.
Proof.
  unfold get, spread.
  change (map ?f arr) with (f <$> arr). rewrite list_lookup_fmap.
  destruct (arr !! i) as [[]|]; reflexivity.
Qed.

Lemma length_js_set arr i v :
  length (js_set arr i v) = Nat.max (length arr) (S i).
Proof.
  unfold js_set. destruct (Nat.ltb_spec i (length arr)).
  - rewrite length_insert. lia.
  - rewrite !length_app, length_replicate. simpl. lia.
Qed.

Lemma js_set_in_range arr i v :
  i < length arr -> js_set arr i v = <[i:=v]> arr.
Proof.
  intros H. unfold js_set. destruct (Nat.ltb_spec i (length arr)); [done|lia].
Qed.

Lemma get_js_set_eq arr i v : v <> Hole -> get (js_set arr i v) i = match v with Hole => Undefined | _ => v end.
Proof.
  intros Hv. unfold get, js_set. destruct (Nat.ltb_spec i (length arr)).
  - rewrite list_lookup_insert_eq by done. by destruct v.
  - rewrite lookup_app_r by done.
    rewrite lookup_app_r by (rewrite length_replicate; lia).
    rewrite length_replicate, Nat.sub_diag. simpl. by destruct v.
Qed.

Lemma get_js_set_ne arr i j v : i <> j -> get (js_set arr i v) j = get arr j.
Proof.
  intros Hne. unfold get, js_set. destruct (Nat.ltb_spec i (length arr)).
  - by rewrite list_lookup_insert_ne.
  - destruct (Nat.lt_ge_cases j (length arr)).
    + by rewrite lookup_app_l.
    + rewrite (lookup_ge_None_2 arr j) by done.
      rewrite lookup_app_r by done.
      destruct (Nat.lt_ge_cases (j - length arr) (i - length arr)).
      * rewrite lookup_app_l by (rewrite length_replicate; lia).
        rewrite lookup_replicate_2 by done. done.
      * rewrite lookup_app_r by (rewrite length_replicate; lia).
        rewrite length_replicate.
        destruct (j - length arr - (i - length arr)) as [|n] eqn:E; [lia|].
        done.
Qed.

Lemma get_ge arr i : length arr <= i -> get arr i = Undefined.
Proof. intros H. unfold get. by rewrite lookup_ge_None_2. Qed.

Lemma get_not_Hole arr i : get arr i <> Hole.
Proof. unfold get. by destruct (arr !! i) as [[]|]. Qed.

Lemma every_forallb_get (f : cell -> bool) (g : nat -> cell) (idxs : list nat) :
  (forall i, g i <> Hole) ->
  every f (map g idxs) = forallb (fun i => f (g i)) idxs.
Proof.
  intros Hg. unfold every. induction idxs as [|i idxs IH]; [done|].
  simpl. rewrite IH. specialize (Hg i). by destruct (g i).
Qed.
End Arrays.

(** ** The winner check *)

Section WinnerCheck.
Implicit Types (arr : array) (size : nat) (p : player).

Lemma forallb_map_comp {A B} (f : B -> bool) (g : A -> B) (l : list A) :
  forallb f (map g l) = forallb (fun x => f (g x)) l.
Proof. induction l as [|x l IH]; simpl; [done|by rewrite IH]. Qed.

Lemma existsb_map_comp {A B} (f : B -> bool) (g : A -> B) (l : list A) :
  existsb f (map g l) = existsb (fun x => f (g x)) l.
Proof. induction l as [|x l IH]; simpl; [done|by rewrite IH]. Qed.

Lemma existsb_ext_in {A} (f g : A -> bool) (l : list A) :
  (forall x, In x l -> f x = g x) -> existsb f l = existsb g l.
Proof.
  induction l as [|x l IH]; simpl; intros H; [done|].
  rewrite H by auto. rewrite IH; auto.
Qed.

(** [checkLine(start, step)] tests the cells [start + i * step]. *)
Lemma checkLine_lineFull arr size p start step :
  checkLine arr size p start step
  = lineFull arr p (map (fun i => start + i * step) (seq 0 size)).
Proof.
  unfold checkLine, Array_from, lineFull.
  rewrite every_forallb_get by (intros; apply get_not_Hole).
  by rewrite forallb_map_comp.
Qed.

(** The guard on the first cell is implied by the line test as soon as
    the line has a cell. *)
Lemma guarded_checkLine arr size p start step :
  0 < size ->
  truthy (get arr start) && checkLine arr size p start step
  = lineFull arr p (map (fun i => start + i * step) (seq 0 size)).
Proof.
  intros Hsize. rewrite checkLine_lineFull.
  destruct size as [|k]; [lia|]. simpl. rewrite Nat.add_0_r.
  destruct (is_player p (get arr start)) eqn:E; simpl.
  - by rewrite (is_player_truthy _ _ E).
  - by rewrite andb_false_r.
Qed.

Lemma rowLine_steps size r :
  map (fun i => r * size + i * 1) (seq 0 size) = rowLine size r.
Proof.
  unfold rowLine, cellIndex. apply map_ext. intros i. lia.
Qed.

Lemma colLine_steps size c :
  map (fun i => c + i * size) (seq 0 size) = colLine size c.
Proof.
  unfold colLine, cellIndex. apply map_ext. intros i. lia.
Qed.

Lemma mainDiagonal_steps size :
  map (fun i => 0 + i * (size + 1)) (seq 0 size) = mainDiagonal size.
Proof.
  unfold mainDiagonal, cellIndex. apply map_ext. intros i. lia.
Qed.

Lemma antiDiagonal_steps k :
  map (fun i => k + i * k) (seq 0 (S k)) = antiDiagonal (S k).
Proof.
  unfold antiDiagonal, cellIndex. apply map_ext_in. intros i Hi.
  apply in_seq in Hi. nia.
Qed.

(** [checkWinner] scans the candidate lines in their order and stops at
    the first one that [p] fully occupies. *)
Lemma checkWinner_existsb arr size p :
  0 < size ->
  checkWinner arr size p = existsb (lineFull arr p) (candidateLines size).
Proof.
  intros Hsize. unfold checkWinner, candidateLines.
  rewrite !existsb_app, !existsb_map_comp. simpl. rewrite orb_false_r.
  rewrite (existsb_ext_in _ (fun r => lineFull arr p (rowLine size r)));
    [|intros r _; by rewrite guarded_checkLine, rowLine_steps].
  rewrite (existsb_ext_in
             (fun c => truthy (get arr c) && checkLine arr size p c size)
             (fun c => lineFull arr p (colLine size c)));
    [|intros c _; by rewrite guarded_checkLine, colLine_steps].
  rewrite guarded_checkLine, mainDiagonal_steps by done.
  destruct size as [|k]; [lia|].
  rewrite guarded_checkLine, antiDiagonal_steps by done.
  by rewrite !orb_assoc.
Qed.

Lemma lineFull_true arr p line :
  lineFull arr p line = true
  <-> forall i, i ∈ line -> arr !! i = Some (Mark p).
Proof.
  unfold lineFull. rewrite forallb_forall. split; intros H i Hi.
  - apply get_Mark, is_player_true, H. by apply list_elem_of_In.
  - apply is_player_true, get_Mark, H. by apply list_elem_of_In.
Qed.

Lemma checkWinner_hasLine arr size p :
  0 < size -> checkWinner arr size p = true <-> hasLine arr size p.
Proof.
  intros Hsize. rewrite checkWinner_existsb by done.
  rewrite existsb_exists. unfold hasLine.
  split; intros (line & Hin & Hfull); exists line.
  - split; [by apply list_elem_of_In|by apply lineFull_true].
  - split; [by apply list_elem_of_In|by apply lineFull_true].
Qed.

Lemma length_candidateLines size :
  length (candidateLines size) = 2 * size + 2.
Proof.
  unfold candidateLines.
  rewrite !length_app, !length_map, !length_seq. simpl. lia.
Qed.

Lemma candidateLines_length size line :
  line ∈ candidateLines size -> length line = size.
Proof.
  unfold candidateLines. rewrite !elem_of_app.
  change (map ?f ?l) with (f <$> l).
  rewrite !list_elem_of_fmap, !elem_of_cons.
  intros [(r & -> & _)|[(c & -> & _)|[->|[->|H]]]].
  - unfold rowLine. by rewrite length_map, length_seq.
  - unfold colLine. by rewrite length_map, length_seq.
  - unfold mainDiagonal. by rewrite length_map, length_seq.
  - unfold antiDiagonal. by rewrite length_map, length_seq.
  - by apply elem_of_nil in H.
Qed.

(** A mark of the other player on a cell that was not [p]'s cannot
    complete a line of [p]: any line [p] has afterwards it had before. *)
Lemma hasLine_js_set_other arr size p q i :
  q <> p -> hasLine (js_set (spread arr) i (Mark q)) size p ->
  hasLine arr size p.
Proof.
  intros Hqp (line & Hin & Hfull). exists line. split; [done|].
  intros j Hj. specialize (Hfull j Hj). apply get_Mark in Hfull.
  destruct (decide (i = j)) as [->|Hne].
  - rewrite get_js_set_eq in Hfull by done. congruence.
  - rewrite get_js_set_ne, get_spread in Hfull by done.
    by apply get_Mark.
Qed.
End WinnerCheck.

(** ** Scores *)

Section Scores.
Implicit Types (a b c : score).

Lemma smax_assoc a b c : smax a (smax b c) = smax (smax a b) c.
Proof. destruct a, b, c; simpl; try done. by rewrite Z.max_assoc. Qed.

Lemma smin_assoc a b c : smin a (smin b c) = smin (smin a b) c.
Proof. destruct a, b, c; simpl; try done. by rewrite Z.min_assoc. Qed.

Lemma smax_NegInf_r a : smax a NegInf = a.
Proof. by destruct a. Qed.

Lemma smin_PosInf_r a : smin a PosInf = a.
Proof. by destruct a. Qed.

Lemma fold_left_smax (l : list score) a :
  fold_left smax l a = smax a (foldr smax NegInf l).
Proof.
  revert a. induction l as [|x l IH]; intros a; simpl.
  - by rewrite smax_NegInf_r.
  - by rewrite IH, smax_assoc.
Qed.

Lemma fold_left_smin (l : list score) a :
  fold_left smin l a = smin a (foldr smin PosInf l).
Proof.
  revert a. induction l as [|x l IH]; intros a; simpl.
  - by rewrite smin_PosInf_r.
  - by rewrite IH, smin_assoc.
Qed.

Lemma sle_refl a : sle a a.
Proof. unfold sle. destruct a; simpl; try done. apply Z.ltb_irrefl. Qed.

Lemma sle_trans a b c : sle a b -> sle b c -> sle a c.
Proof.
  unfold sle. destruct a, b, c; simpl; try done.
  rewrite !Z.ltb_ge. lia.
Qed.

Lemma slt_sle_trans a b c : slt a b -> sle b c -> slt a c.
Proof.
  unfold slt, sle. destruct a, b, c; simpl; try done.
  rewrite Z.ltb_ge, !Z.ltb_lt. lia.
Qed.

Lemma sle_slt_trans a b c : sle a b -> slt b c -> slt a c.
Proof.
  unfold slt, sle. destruct a, b, c; simpl; try done.
  rewrite Z.ltb_ge, !Z.ltb_lt. lia.
Qed.

Lemma slt_sle a b : slt a b -> sle a b.
Proof.
  unfold slt, sle. destruct a, b; simpl; try done.
  rewrite Z.ltb_ge, Z.ltb_lt. lia.
Qed.

Lemma foldr_smax_finite (l : list score) :
  l <> [] -> Forall (fun s => exists z, s = Fin z) l ->
  exists z, foldr smax NegInf l = Fin z.
Proof.
  intros Hne Hall. induction Hall as [|s l [z ->] Hall IH]; [done|].
  simpl. destruct l as [|s' l]; [simpl; eauto|].
  destruct IH as [z' ->]; [done|]. simpl. eauto.
Qed.

Lemma foldr_smin_finite (l : list score) :
  l <> [] -> Forall (fun s => exists z, s = Fin z) l ->
  exists z, foldr smin PosInf l = Fin z.
Proof.
  intros Hne Hall. induction Hall as [|s l [z ->] Hall IH]; [done|].
  simpl. destruct l as [|s' l]; [simpl; eauto|].
  destruct IH as [z' ->]; [done|]. simpl. eauto.
Qed.

Lemma sgt_false_sle a b : sgt a b = false <-> sle a b.
Proof. done. Qed.

Lemma sgt_true_slt a b : sgt a b = true <-> slt b a.
Proof. done. Qed.
End Scores.

(** ** The heap and the empty cells *)

Section HeapFacts.
Implicit Types (h : heap) (l : loc) (a b : array) (i j : nat) (p : player).

Lemma deref_lookup h l a : h !! l = Some a -> deref h l = a.
Proof. intros H. unfold deref. by rewrite H. Qed.

Lemma lookup_store h l a i v :
  h !! l = Some a -> store h l i v !! l = Some (js_set a i v).
Proof.
  intros H. unfold store. rewrite H.
  apply list_lookup_insert_eq. by eapply lookup_lt_Some.
Qed.

Lemma lookup_store_ne h l l' i v : l <> l' -> store h l i v !! l' = h !! l'.
Proof.
  intros Hne. unfold store. destruct (h !! l); [|done].
  by apply list_lookup_insert_ne.
Qed.

Lemma length_store h l i v : length (store h l i v) = length h.
Proof. unfold store. destruct (h !! l); [|done]. apply length_insert. Qed.

(** Writing a mark on an empty cell and then [null] again gives back the
    heap as it was. *)
Lemma store_restore h l a i p :
  h !! l = Some a -> a !! i = Some Null ->
  store (store h l i (Mark p)) l i Null = h.
Proof.
  intros Hl Hi.
  assert (i < length a) as Hlt by (by eapply lookup_lt_Some).
  unfold store at 1. rewrite (lookup_store _ _ _ _ _ Hl).
  unfold store. rewrite Hl, list_insert_insert_eq.
  rewrite (js_set_in_range a) by done.
  rewrite js_set_in_range by (by rewrite length_insert).
  rewrite list_insert_insert_eq, (list_insert_id a) by done.
  by apply list_insert_id.
Qed.

Lemma In_emptyCells b i : In i (emptyCells b) <-> b !! i = Some Null.
Proof.
  unfold emptyCells. rewrite filter_In, in_seq, is_null_true, get_Null.
  split; [tauto|]. intros H. split; [|done].
  apply lookup_lt_Some in H. lia.
Qed.

Lemma elem_of_emptyCells b i : i ∈ emptyCells b <-> b !! i = Some Null.
Proof. rewrite list_elem_of_In. apply In_emptyCells. Qed.

Lemma filter_length_flip (P Q : nat -> bool) (idxs : list nat) i :
  NoDup idxs -> i ∈ idxs -> P i = true -> Q i = false ->
  (forall j, j <> i -> Q j = P j) ->
  length (List.filter P idxs) = S (length (List.filter Q idxs)).
Proof.
  intros Hnd Hin HP HQ Hother.
  induction Hnd as [|x idxs Hx Hnd IH]; [by apply elem_of_nil in Hin|].
  simpl. destruct (decide (x = i)) as [->|Hne].
  - rewrite HP, HQ. simpl. f_equal. f_equal.
    apply filter_ext_in. intros j Hj. symmetry. apply Hother.
    intros ->. by apply Hx, list_elem_of_In.
  - rewrite (Hother x Hne).
    apply elem_of_cons in Hin as [Hin|Hin]; [congruence|].
    destruct (P x); simpl; rewrite IH; auto.
Qed.

Lemma length_place b i p : length (place b i p) = length b.
Proof. apply length_insert. Qed.

Lemma get_place_ne b i j p : i <> j -> get (place b i p) j = get b j.
Proof. intros H. unfold get, place. by rewrite list_lookup_insert_ne. Qed.

Lemma get_place_eq b i p : i < length b -> get (place b i p) i = Mark p.
Proof. intros H. unfold get, place. by rewrite list_lookup_insert_eq. Qed.

(** Placing a mark on an empty cell leaves one empty cell less. *)
Lemma emptyCells_place b i p :
  b !! i = Some Null ->
  length (emptyCells b) = S (length (emptyCells (place b i p))).
Proof.
  intros Hi. assert (i < length b) as Hlt by (by eapply lookup_lt_Some).
  unfold emptyCells. rewrite length_place.
  apply (filter_length_flip _ _ _ i).
  - apply NoDup_seq.
  - apply list_elem_of_In, in_seq. lia.
  - by apply is_null_true, get_Null.
  - by rewrite get_place_eq.
  - intros j Hj. by rewrite get_place_ne.
Qed.

Lemma every_truthy_no_empty b : every truthy b = true -> emptyCells b = [].
Proof.
  intros H. destruct (emptyCells b) as [|i rest] eqn:E; [done|].
  assert (In i (emptyCells b)) as Hi by (rewrite E; by left).
  apply In_emptyCells in Hi.
  unfold every in H. rewrite forallb_forall in H.
  apply list_elem_of_lookup_2, list_elem_of_In in Hi.
  by specialize (H _ Hi).
Qed.

Lemma isBoard_lookup b i c :
  isBoard b -> b !! i = Some c -> c = Null \/ exists p, c = Mark p.
Proof.
  intros Hb Hi. unfold isBoard in Hb. rewrite Forall_forall in Hb.
  apply Hb. by eapply list_elem_of_lookup_2.
Qed.

(** On a board, a cell that is not occupied is empty. *)
Lemma isBoard_not_full b :
  isBoard b -> every truthy b = false -> exists i, b !! i = Some Null.
Proof.
  intros Hb. unfold every. induction Hb as [|c b Hc Hb IH]; simpl; [done|].
  intros H. destruct Hc as [->|[p ->]].
  - by exists 0.
  - simpl in H. destruct (IH H) as [i Hi]. by exists (S i).
Qed.

Lemma isBoard_place b i p : isBoard b -> isBoard (place b i p).
Proof.
  intros Hb. unfold isBoard, place. apply Forall_insert; eauto.
Qed.

Lemma isBoard_spread b : isBoard b -> spread b = b.
Proof.
  intros Hb. unfold spread. induction Hb as [|c b Hc Hb IH]; [done|].
  simpl. rewrite IH. by destruct Hc as [->|[p ->]].
Qed.
End HeapFacts.

(** ** The search: mutate, recurse, restore *)

Section Search.
Variable size : nat.
Implicit Types (h : heap) (arr : loc) (b : array) (d : Z).

Lemma specMinimax_eq ai plies b d maximizing :
  specMinimax ai size plies b d maximizing =
  if checkWinner b size ai then Fin (10 - d)
  else if checkWinner b size (other ai) then Fin (d - 10)
  else if every truthy b then Fin 0
  else
    match plies with
    | 0 => if maximizing then NegInf else PosInf
    | S n =>
        if maximizing then
          foldr smax NegInf
            (map (fun i => specMinimax ai size n (place b i ai) (d + 1) false)
                 (emptyCells b))
        else
          foldr smin PosInf
            (map (fun i => specMinimax ai size n (place b i (other ai))
                                       (d + 1) true)
                 (emptyCells b))
    end.
Proof. by destruct plies. Qed.

(** One loop of [minimax]: when the search of every candidate returns
    its heap unchanged, the loop combines the candidates' scores in scan
    order and returns the heap it started from. *)
Lemma search_loop (search : heap -> option (score * heap))
    (op : score -> score -> score) (p : player) h arr b (v : nat -> score) :
  h !! arr = Some b ->
  (forall i, b !! i = Some Null ->
     search (store h arr i (Mark p)) = Some (v i, store h arr i (Mark p))) ->
  forall idxs best,
    for_each idxs
      (fun i '(best, h0) =>
         if is_null (get (deref h0 arr) i) then
           match search (store h0 arr i (Mark p)) with
           | Some (s, h') => Some (op best s, store h' arr i Null)
           | None => None
           end
         else Some (best, h0))
      (best, h)
    = Some (fold_left op
              (map v (List.filter (fun i => is_null (get b i)) idxs)) best,
            h).
Proof.
  intros Hl Hsearch idxs.
  induction idxs as [|i idxs IH]; intros best; [done|].
  simpl. rewrite (deref_lookup _ _ _ Hl).
  destruct (is_null (get b i)) eqn:E; [|apply IH].
  apply is_null_true, get_Null in E.
  rewrite (Hsearch i E), (store_restore _ _ _ _ _ Hl E). simpl. apply IH.
Qed.

(** [minimax] computes the evaluation of the specification for the side
    [O] and returns the heap exactly as it received it. *)
Lemma minimax_specMinimax fuel :
  forall plies h arr b d m,
    h !! arr = Some b ->
    length (emptyCells b) < fuel ->
    length (emptyCells b) <= plies ->
    minimax size fuel h arr d m = Some (specMinimax O size plies b d m, h).
Proof.
  induction fuel as [|f IH]; intros plies h arr b d m Hl Hfuel Hplies; [lia|].
  cbn [minimax]. rewrite specMinimax_eq, (deref_lookup _ _ _ Hl).
  cbn [other].
  destruct (checkWinner b size O); [done|].
  destruct (checkWinner b size X); [done|].
  destruct (every truthy b); [done|].
  assert (forall p nx i, b !! i = Some Null ->
            minimax size f (store h arr i (Mark p)) arr (d + 1) nx
            = Some (specMinimax O size (pred plies) (place b i p) (d + 1) nx,
                    store h arr i (Mark p))) as Hchild.
  { intros p nx i Hi.
    pose proof (emptyCells_place b i p Hi) as Hlen.
    apply IH; [|lia|lia].
    rewrite (lookup_store _ _ _ _ _ Hl). f_equal. apply js_set_in_range.
    by eapply lookup_lt_Some. }
  destruct m.
  - etrans; [exact (search_loop
                      (fun h0 => minimax size f h0 arr (d + 1) false)
                      smax O h arr b _ Hl (Hchild O false) _ NegInf)|].
    f_equal. f_equal. rewrite fold_left_smax.
    fold (emptyCells b). destruct plies as [|n]; [|by destruct (foldr _ _ _)].
    by destruct (emptyCells b); [|simpl in Hplies; lia].
  - etrans; [exact (search_loop
                      (fun h0 => minimax size f h0 arr (d + 1) true)
                      smin X h arr b _ Hl (Hchild X true) _ PosInf)|].
    f_equal. f_equal. rewrite fold_left_smin.
    fold (emptyCells b). destruct plies as [|n]; [|by destruct (foldr _ _ _)].
    by destruct (emptyCells b); [|simpl in Hplies; lia].
Qed.

(** The evaluation does not depend on the bound once it covers the empty
    cells. *)
Lemma specMinimax_plies ai plies plies' b d m :
  length (emptyCells b) <= plies -> length (emptyCells b) <= plies' ->
  specMinimax ai size plies b d m = specMinimax ai size plies' b d m.
Proof.
  revert plies' b d m.
  induction plies as [|n IH]; intros plies' b d m H1 H2.
  - rewrite !specMinimax_eq.
    destruct plies' as [|n']; [done|].
    by destruct (emptyCells b); [|simpl in H1; lia].
  - rewrite (specMinimax_eq _ (S n)), (specMinimax_eq _ plies').
    destruct plies' as [|n'].
    { by destruct (emptyCells b); [|simpl in H2; lia]. }
    assert (forall p nx, map (fun i => specMinimax ai size n (place b i p) (d + 1) nx)
                       (emptyCells b)
                  = map (fun i => specMinimax ai size n' (place b i p) (d + 1) nx)
                        (emptyCells b)) as Hmap.
    { intros p nx. apply map_ext_in. intros i Hi. apply In_emptyCells in Hi.
      pose proof (emptyCells_place b i p Hi). apply IH; lia. }
    by rewrite !Hmap.
Qed.

(** On a board the evaluation is a finite score. *)
Lemma specMinimax_finite ai plies :
  forall b d m, isBoard b -> length (emptyCells b) <= plies ->
    exists z, specMinimax ai size plies b d m = Fin z.
Proof.
  induction plies as [|n IH]; intros b d m Hb Hplies;
    rewrite specMinimax_eq.
  - destruct (checkWinner b size ai); [eauto|].
    destruct (checkWinner b size (other ai)); [eauto|].
    destruct (every truthy b) eqn:E; [eauto|].
    destruct (isBoard_not_full b Hb E) as [i Hi].
    apply In_emptyCells in Hi.
    destruct (emptyCells b); [done|simpl in Hplies; lia].
  - destruct (checkWinner b size ai); [eauto|].
    destruct (checkWinner b size (other ai)); [eauto|].
    destruct (every truthy b) eqn:E; [eauto|].
    destruct (isBoard_not_full b Hb E) as [i0 Hi0].
    apply In_emptyCells in Hi0.
    assert (forall p nx i, In i (emptyCells b) ->
              exists z, specMinimax ai size n (place b i p) (d + 1) nx = Fin z)
      as Hchild.
    { intros p nx i Hi. apply In_emptyCells in Hi.
      pose proof (emptyCells_place b i p Hi).
      apply IH; [by apply isBoard_place|lia]. }
    assert (emptyCells b <> []) as Hne by (by destruct (emptyCells b)).
    destruct m.
    + apply foldr_smax_finite.
      * by destruct (emptyCells b).
      * apply Forall_forall. intros s Hs. apply list_elem_of_In, in_map_iff in Hs.
        destruct Hs as (i & <- & Hi). by apply Hchild.
    + apply foldr_smin_finite.
      * by destruct (emptyCells b).
      * apply Forall_forall. intros s Hs. apply list_elem_of_In, in_map_iff in Hs.
        destruct Hs as (i & <- & Hi). by apply Hchild.
Qed.
End Search.

(** ** The hard selector *)

Section HardSelector.
Variable size : nat.
Implicit Types (h : heap) (board : loc) (b : array).

Lemma length_emptyCells_le b : length (emptyCells b) <= length b.
Proof.
  unfold emptyCells. etrans; [apply filter_length_le|]. by rewrite length_seq.
Qed.

(** The loop of [getBestMove]: every candidate is searched on a copy
    allocated past the end of the heap, so the heap the loop started from
    is a prefix of the heap it ends with. *)
Lemma getBestMove_loop h board b :
  h !! board = Some b ->
  forall idxs bestScore move ext,
  exists ext',
    for_each idxs
      (fun i '(bestScore, move, h) =>
         if is_null (get (deref h board) i) then
           let '(newBoard, h1) := alloc h (spread (deref h board)) in
           let h2 := store h1 newBoard i (Mark O) in
           match minimax size (S (length (deref h2 newBoard))) h2 newBoard
                         0 false with
           | Some (s, h3) =>
               if sgt s bestScore then Some (s, Some i, h3)
               else Some (bestScore, move, h3)
           | None => None
           end
         else Some (bestScore, move, h))
      (bestScore, move, h ++ ext)
    = Some (fold_left (keepBest (candidateScore size b))
              (List.filter (fun i => is_null (get b i)) idxs)
              (bestScore, move),
            h ++ ext').
Proof.
  intros Hl idxs.
  induction idxs as [|i idxs IH]; intros bestScore move ext; [by exists ext|].
  assert ((h ++ ext) !! board = Some b) as Hl'.
  { rewrite lookup_app_l; [done|]. by eapply lookup_lt_Some. }
  cbn [for_each List.filter]. rewrite (deref_lookup _ _ _ Hl').
  destruct (is_null (get b i)) eqn:E; [|exact (IH bestScore move ext)].
  cbn [fold_left].
  unfold alloc. cbv beta match zeta.
  set (nb := js_set (spread b) i (Mark O)).
  assert (store ((h ++ ext) ++ [spread b]) (length (h ++ ext)) i (Mark O)
          = h ++ (ext ++ [nb])) as Hstore.
  { unfold store. rewrite lookup_app_r, Nat.sub_diag by done. simpl.
    rewrite insert_app_r_alt, Nat.sub_diag by done. simpl.
    by rewrite <- app_assoc. }
  rewrite Hstore.
  assert ((h ++ ext ++ [nb]) !! length (h ++ ext) = Some nb) as Hnb.
  { rewrite app_assoc. rewrite lookup_app_r, Nat.sub_diag by done. done. }
  rewrite (deref_lookup _ _ _ Hnb).
  apply is_null_true, get_Null in E.
  assert (length nb = length b) as Hlen.
  { unfold nb. rewrite length_js_set, length_spread.
    apply lookup_lt_Some in E. lia. }
  rewrite (minimax_specMinimax size _ (length b) _ _ nb 0 false Hnb);
    [|pose proof (length_emptyCells_le nb); lia
     |pose proof (length_emptyCells_le nb); lia].
  change (specMinimax O size (length b) nb 0 false)
    with (candidateScore size b i).
  change (keepBest (candidateScore size b) (bestScore, move) i)
    with (if sgt (candidateScore size b i) bestScore
          then (candidateScore size b i, Some i) else (bestScore, move)).
  destruct (sgt (candidateScore size b i) bestScore).
  - exact (IH (candidateScore size b i) (Some i) (ext ++ [nb])).
  - exact (IH bestScore move (ext ++ [nb])).
Qed.

(** The invariant of the scan: after the indices below [n], [bestScore]
    bounds the scores of all candidates seen, and [move] is the first
    candidate that reaches it. *)
Lemma keepBest_scan (f : nat -> score) (P : nat -> bool) n :
  forall bs mv,
    fold_left (keepBest f) (List.filter P (seq 0 n)) (NegInf, None) = (bs, mv) ->
    (forall j, j < n -> P j = true -> sle (f j) bs)
    /\ (mv = None -> bs = NegInf)
    /\ (forall i, mv = Some i ->
          i < n /\ P i = true /\ f i = bs
          /\ forall j, j < i -> P j = true -> slt (f j) (f i)).
Proof.
  induction n as [|n IH]; intros bs mv.
  - simpl. intros [= <- <-]. repeat split; try done; intros; lia.
  - rewrite seq_S, List.filter_app, fold_left_app. simpl.
    destruct (fold_left (keepBest f) (List.filter P (seq 0 n)) (NegInf, None))
      as [bs0 mv0] eqn:E0.
    destruct (IH bs0 mv0 eq_refl) as (Hle & Hnone & Hsome).
    destruct (P n) eqn:EP; simpl.
    + unfold keepBest at 1. simpl.
      destruct (sgt (f n) bs0) eqn:Egt.
      * intros [= <- <-]. split; [|split; [done|]].
        -- intros j Hj HP. destruct (decide (j = n)) as [->|Hne];
             [apply sle_refl|].
           apply slt_sle, (sle_slt_trans _ bs0); [apply Hle; [lia|done]|done].
        -- intros i [= <-]. repeat split; try done; [lia|].
           intros j Hj HP. by apply (sle_slt_trans _ bs0); [apply Hle|].
      * intros [= <- <-]. split; [|split; [done|]].
        -- intros j Hj HP. destruct (decide (j = n)) as [->|Hne]; [done|].
           apply Hle; [lia|done].
        -- intros i Hi. destruct (Hsome i Hi) as (? & ? & ? & ?).
           repeat split; try done. lia.
    + intros [= <- <-]. split; [|split; [done|]].
      * intros j Hj HP. destruct (decide (j = n)) as [->|Hne]; [congruence|].
        apply Hle; [lia|done].
      * intros i Hi. destruct (Hsome i Hi) as (? & ? & ? & ?).
        repeat split; try done. lia.
Qed.
End HardSelector.

(** ** What the selectors return *)

Section Selectors.
Implicit Types (s : GameState) (b : array) (u : Q).

Lemma getBestMove_heap_scan size (h : heap) (board : loc) b :
  h !! board = Some b ->
  exists ext,
    getBestMove_heap size h board
    = Some (snd (fold_left (keepBest (candidateScore size b))
                   (emptyCells b) (NegInf, None)),
            h ++ ext).
Proof.
  intros Hl. unfold getBestMove_heap.
  destruct (getBestMove_loop size h board b Hl
              (seq 0 (length (deref h board))) NegInf None [])
    as [ext Hloop].
  rewrite app_nil_r, (deref_lookup _ _ _ Hl) in Hloop.
  rewrite (deref_lookup _ _ _ Hl).
  set (r := for_each _ _ _).
  assert (r = Some (fold_left (keepBest (candidateScore size b))
                      (emptyCells b) (NegInf, None), h ++ ext)) as ->
    by exact Hloop.
  exists ext. by destruct (fold_left _ _ _) as [bs mv].
Qed.

Lemma getBestMove_scan s :
  getBestMove s
  = snd (fold_left (keepBest (candidateScore (boardSize s) (board s)))
           (emptyCells (board s)) (NegInf, None)).
Proof.
  unfold getBestMove.
  destruct (getBestMove_heap_scan (boardSize s) [board s] 0 (board s) eq_refl)
    as [ext ->].
  done.
Qed.

Lemma candidateScore_place size b i :
  isBoard b -> i < length b ->
  candidateScore size b i = specMinimax O size (length b) (place b i O) 0 false.
Proof.
  intros Hb Hi. unfold candidateScore.
  by rewrite (isBoard_spread b Hb), js_set_in_range.
Qed.

Lemma candidateScore_finite size b i :
  isBoard b -> b !! i = Some Null -> exists z, candidateScore size b i = Fin z.
Proof.
  intros Hb Hi. assert (i < length b) by (by eapply lookup_lt_Some).
  rewrite candidateScore_place by done.
  apply specMinimax_finite; [by apply isBoard_place|].
  pose proof (emptyCells_place b i O Hi).
  pose proof (length_emptyCells_le b). lia.
Qed.

(** On a board with an empty cell the hard selector returns the first
    empty index with the highest candidate score. *)
Lemma getBestMove_first_best s :
  isBoard (board s) -> (exists i, board s !! i = Some Null) ->
  exists i,
    getBestMove s = Some i /\ board s !! i = Some Null
    /\ (forall j, board s !! j = Some Null ->
          sle (candidateScore (boardSize s) (board s) j)
              (candidateScore (boardSize s) (board s) i))
    /\ (forall j, j < i -> board s !! j = Some Null ->
          slt (candidateScore (boardSize s) (board s) j)
              (candidateScore (boardSize s) (board s) i)).
Proof.
  intros Hb [i0 Hi0]. rewrite getBestMove_scan. unfold emptyCells.
  destruct (fold_left _ _ _) as [bs mv] eqn:E.
  apply keepBest_scan in E as (Hle & Hnone & Hsome).
  assert (forall j, board s !! j = Some Null ->
            j < length (board s) /\ is_null (get (board s) j) = true) as Hnull.
  { intros j Hj. split; [by eapply lookup_lt_Some|].
    by apply is_null_true, get_Null. }
  destruct mv as [i|].
  - destruct (Hsome i eq_refl) as (Hi & HP & Hfi & Hfirst).
    exists i. simpl. split; [done|]. split; [by apply get_Null, is_null_true|].
    split.
    + intros j Hj. rewrite Hfi. by apply Hle; apply Hnull.
    + intros j Hlt Hj. by apply Hfirst; [|apply Hnull].
  - exfalso. rewrite (Hnone eq_refl) in Hle.
    destruct (candidateScore_finite (boardSize s) _ _ Hb Hi0) as [z Hz].
    destruct (Hnull _ Hi0) as [H1 H2].
    specialize (Hle i0 H1 H2). by rewrite Hz in Hle.
Qed.

Lemma getBestMove_None s :
  (forall i, board s !! i <> Some Null) -> getBestMove s = None.
Proof.
  intros Hfull. rewrite getBestMove_scan.
  destruct (emptyCells (board s)) as [|i rest] eqn:E; [done|].
  exfalso. apply (Hfull i), In_emptyCells. rewrite E. by left.
Qed.

(** The list [empty] of [getRandomMove] holds the empty cells in scan
    order. *)
Lemma emptyIndices_emptyCells b : emptyIndices b = emptyCells b.
Proof.
  unfold emptyIndices, emptyCells.
  induction b as [|c b IH] using rev_ind; [done|].
  rewrite imap_app, omap_app, IH, length_app. simpl length.
  rewrite Nat.add_1_r, seq_S, List.filter_app. f_equal.
  - apply filter_ext_in. intros i Hi. apply in_seq in Hi.
    unfold get. rewrite lookup_app_l by lia. done.
  - simpl. rewrite Nat.add_0_r.
    unfold get. rewrite lookup_app_r, Nat.sub_diag by done. simpl.
    by destruct c.
Qed.

End Selectors.

(** ** Numbers and the random draw *)

Section Doubles.
Local Open Scope Q_scope.

Local Ltac qfield := field; repeat split; lra.

Lemma pow2_pos (k : Z) : 0 < 2 ^ k.
Proof. by apply Qpower_0_lt. Qed.

Lemma pow2_add (a b : Z) : 2 ^ (a + b) == 2 ^ a * 2 ^ b.
Proof. by apply Qpower_plus. Qed.

Lemma pow2_succ (a : Z) : 2 ^ (a + 1) == 2 * 2 ^ a.
Proof. rewrite pow2_add. change (2 ^ 1) with 2. ring. Qed.

Lemma pow2_le (a b : Z) : (a <= b)%Z -> 2 ^ a <= 2 ^ b.
Proof. intros. by apply Qpower_le_compat_l. Qed.

Lemma pow2_log2 (a : Z) :
  (0 < a)%Z -> 2 ^ Z.log2 a <= inject_Z a /\ inject_Z a < 2 * 2 ^ Z.log2 a.
Proof.
  intros Ha. destruct (Z.log2_spec a Ha) as [Hlo Hhi].
  pose proof (Z.log2_nonneg a) as Hnn.
  rewrite <- pow2_succ.
  change 2 with (inject_Z 2).
  rewrite <- !Zpower_Qpower by lia.
  rewrite <- Zle_Qle, <- Zlt_Qlt. split; [done|]. by rewrite <- Z.add_1_r in Hhi.
Qed.

(** The scaled value lies in the binade of 53-bit integers. *)
Lemma binade_spec (x : Q) :
  0 < x -> 2 ^ 52 <= x * 2 ^ binade x /\ x * 2 ^ binade x < 2 ^ 53.
Proof.
  intros Hx. unfold binade.
  destruct x as [a b]. cbn [Qnum Qden].
  assert (0 < a)%Z as Ha.
  { unfold Qlt in Hx. simpl in Hx. lia. }
  destruct (pow2_log2 a Ha) as [Ha1 Ha2].
  destruct (pow2_log2 (Zpos b) (Pos2Z.is_pos b)) as [Hb1 Hb2].
  set (la := Z.log2 a) in *. set (lb := Z.log2 (Z.pos b)) in *.
  set (k := (52 - la + lb)%Z).
  pose proof (pow2_pos la) as Hpa. pose proof (pow2_pos lb) as Hpb.
  pose proof (pow2_pos k) as Hpk.
  assert (2 ^ k * 2 ^ la == 2 ^ 52 * 2 ^ lb) as Hk.
  { rewrite <- !pow2_add. by replace (k + la)%Z with (52 + lb)%Z by lia. }
  assert (a # b == inject_Z a / inject_Z (Z.pos b)) as Hab by apply Qmake_Qdiv.
  assert (0 < inject_Z (Z.pos b)) as HB.
  { change 0 with (inject_Z 0). rewrite <- Zlt_Qlt. lia. }
  set (A := inject_Z a) in *. set (B := inject_Z (Z.pos b)) in *.
  set (y := (a # b) * 2 ^ k).
  assert (y * B == A * 2 ^ k) as Hy.
  { unfold y. rewrite Hab. qfield. }
  assert (2 ^ 53 == 2 * 2 ^ 52) as H53 by (by rewrite <- pow2_succ).
  rewrite H53.
  set (P52 := 2 ^ 52) in *. 
  assert (0 < P52) as HP52 by apply pow2_pos.
  set (Pa := 2 ^ la) in *. set (Pb := 2 ^ lb) in *. set (Pk := 2 ^ k) in *.
  assert (y * (B * Pa) == P52 * (A * Pb)) as Hyy.
  { transitivity (y * B * Pa); [ring|]. rewrite Hy.
    transitivity (A * (Pk * Pa)); [ring|]. rewrite Hk. ring. }
  assert (0 < B * Pa) as HBa by (by apply Qmult_lt_0_compat).
  assert (0 < A) as HA by lra.
  assert (B * Pa < 2 * (A * Pb)) as Hlo.
  { apply Qlt_le_trans with (2 * Pb * Pa).
    - apply Qmult_lt_compat_r; lra.
    - assert (2 * (A * Pb) == 2 * Pb * A) as -> by ring.
      apply Qmult_le_l; lra. }
  assert (A * Pb < 2 * (B * Pa)) as Hhi.
  { apply Qlt_le_trans with (2 * Pa * Pb).
    - apply Qmult_lt_compat_r; lra.
    - assert (2 * (B * Pa) == 2 * Pa * B) as -> by ring.
      apply Qmult_le_l; lra. }
  assert (P52 < 2 * y /\ y < 2 * P52) as [Hy1 Hy2].
  { split.
    - apply (Qmult_lt_r _ _ (B * Pa)); [done|].
      assert (2 * y * (B * Pa) == 2 * (y * (B * Pa))) as -> by ring.
      rewrite Hyy.
      assert (2 * (P52 * (A * Pb)) == P52 * (2 * (A * Pb))) as -> by ring.
      by apply Qmult_lt_l.
    - apply (Qmult_lt_r _ _ (B * Pa)); [done|]. rewrite Hyy.
      assert (2 * P52 * (B * Pa) == P52 * (2 * (B * Pa))) as -> by ring.
      by apply Qmult_lt_l. }
  destruct (Qle_bool P52 y) eqn:Hc.
  - apply Qle_bool_iff in Hc. done.
  - assert (~ P52 <= y) as Hn by (rewrite <- Qle_bool_iff; congruence).
    apply Qnot_le_lt in Hn.
    fold Pk in y.
    assert ((a # b) * 2 ^ (k + 1) == 2 * y) as ->.
    { rewrite pow2_succ. unfold y, Pk. ring. }
    split; lra.
Qed.

Lemma quantum_scaled (x : Q) : 0 < x -> x * 2 ^ quantum x < 2 ^ 53.
Proof.
  intros Hx. destruct (binade_spec x Hx) as [_ Hb].
  eapply Qle_lt_trans; [|exact Hb].
  apply Qmult_le_l; [done|]. apply pow2_le. unfold quantum. lia.
Qed.

Lemma quantum_unit (x : Q) :
  0 < x -> 2 ^ 52 <= x * 2 ^ quantum x \/ quantum x = 1074%Z.
Proof.
  intros Hx. destruct (binade_spec x Hx) as [Hb _]. unfold quantum.
  destruct (Z.min_spec (binade x) 1074) as [[_ ->]|[_ ->]]; auto.
Qed.

Lemma roundDown_range (u : Q) : 0 <= u -> 0 <= roundDown u /\ roundDown u <= u.
Proof.
  intros Hu. unfold roundDown. destruct (Qle_bool u 0) eqn:Hc.
  - split; [apply Qle_refl|done].
  - assert (~ u <= 0) as Hn by (rewrite <- Qle_bool_iff; congruence).
    pose proof (pow2_pos (quantum u)) as Hp.
    set (y := u * 2 ^ quantum u).
    assert (0 <= y) as Hy by (by apply Qmult_le_0_compat; [|apply Qlt_le_weak]).
    split.
    + apply Qle_shift_div_l; [done|]. rewrite Qmult_0_l.
      change 0 with (inject_Z 0). rewrite <- Zle_Qle.
      rewrite <- (Qfloor_Z 0). by apply Qfloor_resp_le.
    + apply Qle_shift_div_r; [done|]. apply Qfloor_le.
Qed.

(** A draw below one gives a Number that is at most the largest double
    below one. *)
Lemma Math_random_below_one (u : Q) :
  0 <= u < 1 -> Math_random u * 2 ^ 53 <= 2 ^ 53 - 1.
Proof.
  intros [Hu0 Hu1]. unfold Math_random, roundDown.
  destruct (Qle_bool u 0) eqn:Hc; [by vm_compute|].
  assert (~ u <= 0) as Hn by (rewrite <- Qle_bool_iff; congruence).
  apply Qnot_le_lt in Hn.
  destruct (binade_spec u Hn) as [Hb _].
  pose proof (quantum_scaled u Hn) as Hq.
  pose proof (pow2_pos (binade u)) as Hpb.
  assert (52 < binade u)%Z as Hlt.
  { apply (Qpower_lt_compat_l_inv 2); [|done].
    eapply Qle_lt_trans; [exact Hb|].
    rewrite <- (Qmult_1_l (2 ^ binade u)) at 2.
    by apply Qmult_lt_compat_r. }
  assert (53 <= quantum u)%Z as Hge by (unfold quantum; lia).
  pose proof (pow2_le 53 (quantum u) Hge) as Hle.
  pose proof (pow2_pos (quantum u)) as Hp.
  set (q := quantum u) in *. set (m := Qfloor (u * 2 ^ q)).
  assert (inject_Z m <= 2 ^ 53 - 1) as Hm.
  { assert (m < 2 ^ 53)%Z as Hz.
    { rewrite Zlt_Qlt. eapply Qle_lt_trans; [apply Qfloor_le|].
      by rewrite Zpower_Qpower. }
    assert (m <= 2 ^ 53 - 1)%Z as Hz' by lia.
    rewrite Zle_Qle in Hz'. exact Hz'. }
  assert (0 <= inject_Z m) as Hm0.
  { change 0 with (inject_Z 0). rewrite <- Zle_Qle.
    rewrite <- (Qfloor_Z 0). apply Qfloor_resp_le.
    apply Qmult_le_0_compat; by apply Qlt_le_weak. }
  assert (inject_Z m / 2 ^ q * 2 ^ 53 == inject_Z m * (2 ^ 53 / 2 ^ q)) as ->.
  { qfield. }
  apply Qle_trans with (inject_Z m * 1); [|by rewrite Qmult_1_r].
  rewrite !(Qmult_comm (inject_Z m)). apply Qmult_le_compat_r; [|done].
  apply Qle_shift_div_r; [done|]. by rewrite Qmult_1_l.
Qed.

Lemma nearestEven_bounds (y : Q) :
  y - (1 # 2) <= inject_Z (nearestEven y) /\ inject_Z (nearestEven y) <= y + (1 # 2).
Proof.
  unfold nearestEven.
  pose proof (Qfloor_le y) as Hlo. pose proof (Qlt_floor y) as Hhi.
  rewrite inject_Z_plus in Hhi. change (inject_Z 1) with 1 in Hhi.
  set (m := Qfloor y) in *.
  destruct (Qcompare_spec (y - inject_Z m) (1 # 2)) as [He|Hl|Hg].
  - destruct (Z.even m); [|rewrite inject_Z_plus; change (inject_Z 1) with 1];
      split; lra.
  - split; lra.
  - rewrite inject_Z_plus; change (inject_Z 1) with 1. split; lra.
Qed.

Lemma roundPos_nonneg (x : Q) : 0 < x -> 0 <= roundPos x.
Proof.
  intros Hx. unfold roundPos.
  pose proof (pow2_pos (quantum x)) as Hp.
  apply Qle_shift_div_l; [done|]. rewrite Qmult_0_l.
  set (y := x * 2 ^ quantum x).
  assert (0 < y) as Hy by (by apply Qmult_lt_0_compat).
  destruct (nearestEven_bounds y) as [Hlo _].
  assert (-1 < nearestEven y)%Z as Hz.
  { rewrite Zlt_Qlt. change (inject_Z (-1)) with (-1). lra. }
  change 0 with (inject_Z 0). rewrite <- Zle_Qle. lia.
Qed.

(** The rounded product of a Number below one and a positive integer stays
    below the integer. *)
Lemma roundNearest_below (x : Q) (n : Z) :
  (1 <= n)%Z -> 0 <= x -> x * 2 ^ 53 <= inject_Z n * (2 ^ 53 - 1) ->
  0 <= roundNearest x /\ roundNearest x < inject_Z n.
Proof.
  intros Hn Hx0 Hx. unfold roundNearest.
  assert (1 <= inject_Z n) as Hn'.
  { change 1 with (inject_Z 1). by rewrite <- Zle_Qle. }
  destruct (Qcompare_spec x 0) as [He|Hl|Hg].
  - split; lra.
  - lra.
  - split; [by apply roundPos_nonneg|].
    unfold roundPos. set (q := quantum x).
    pose proof (pow2_pos q) as Hp.
    destruct (nearestEven_bounds (x * 2 ^ q)) as [_ Hub].
    apply Qlt_shift_div_r; [done|].
    eapply Qle_lt_trans; [exact Hub|].
    assert (2 ^ 53 == 2 * 2 ^ 52) as H53 by (by rewrite <- pow2_succ).
    pose proof (pow2_pos 52) as HP52.
    rewrite H53 in Hx. set (P52 := 2 ^ 52) in *. set (N := inject_Z n) in *.
    set (Pq := 2 ^ q) in *.
    (* it suffices that N < 2 * P52 * (N - x) and 2 * P52 * 1/2 < ... *)
    apply (Qmult_lt_r _ _ (2 * P52)); [lra|].
    assert ((x * Pq + (1 # 2)) * (2 * P52) == Pq * (x * (2 * P52)) + P52) as ->
      by ring.
    assert (N * Pq * (2 * P52) == Pq * (N * (2 * P52 - 1)) + Pq * N) as ->
      by ring.
    assert (Pq * (x * (2 * P52)) <= Pq * (N * (2 * P52 - 1))) as H1.
    { apply Qmult_le_l; [done|]. exact Hx. }
    assert (P52 < Pq * N) as H2.
    { destruct (quantum_unit x Hg) as [Hu|Hu]; fold q in Hu; fold Pq in Hu.
      - (* P52 <= x * Pq and x < N *)
        assert (x < N) as HxN.
        { apply (Qmult_lt_r _ _ (2 * P52)); [lra|]. 
          assert (N * (2 * P52 - 1) < N * (2 * P52)) as H3; [|lra].
          apply Qmult_lt_l; lra. }
        eapply Qle_lt_trans; [exact Hu|]. rewrite (Qmult_comm x).
        by apply Qmult_lt_l.
      - apply Qlt_le_trans with (Pq * 1).
        + rewrite Qmult_1_r. unfold P52, Pq. rewrite Hu.
          by apply Qpower_lt_compat_l.
        + by apply Qmult_le_l. }
    lra.
Qed.

Lemma floorMul_lt (u : Q) (n : nat) :
  0 <= u < 1 -> (0 < n)%nat -> (floorMul u n < n)%nat.
Proof.
  intros Hu Hn. unfold floorMul.
  destruct (roundDown_range u (proj1 Hu)) as [Hr0 _].
  pose proof (Math_random_below_one u Hu) as Hr1.
  fold (Math_random u) in Hr0.
  set (N := inject_Z (Z.of_nat n)).
  assert (1 <= N) as HN.
  { unfold N. change 1 with (inject_Z 1). rewrite <- Zle_Qle. lia. }
  destruct (roundNearest_below (Math_random u * N) (Z.of_nat n)) as [H0 H1].
  - lia.
  - apply Qmult_le_0_compat; lra.
  - fold N.
    assert (Math_random u * N * 2 ^ 53 == N * (Math_random u * 2 ^ 53)) as ->
      by ring.
    apply Qmult_le_l; [lra|done].
  - set (r := roundNearest (Math_random u * N)) in *.
    assert (0 <= Qfloor r)%Z.
    { rewrite <- (Qfloor_Z 0). by apply Qfloor_resp_le. }
    assert (Qfloor r < Z.of_nat n)%Z.
    { rewrite Zlt_Qlt. eapply Qle_lt_trans; [apply Qfloor_le|done]. }
    lia.
Qed.

Lemma quantum_ge_53 (u : Q) : 0 < u < 1 -> (53 <= quantum u)%Z.
Proof.
  intros [Hu0 Hu1]. destruct (binade_spec u Hu0) as [Hb _].
  pose proof (pow2_pos (binade u)) as Hpb.
  assert (52 < binade u)%Z as Hlt.
  { apply (Qpower_lt_compat_l_inv 2); [|done].
    eapply Qle_lt_trans; [exact Hb|].
    rewrite <- (Qmult_1_l (2 ^ binade u)) at 2.
    by apply Qmult_lt_compat_r. }
  unfold quantum. lia.
Qed.

(** [Math.random()] returns the draw itself when the draw is a Number. *)
Lemma Math_random_Number (m k : Z) :
  (0 <= m < 2 ^ 53)%Z -> (k <= 1074)%Z ->
  Math_random (inject_Z m / 2 ^ k) == inject_Z m / 2 ^ k.
Proof.
  intros Hm Hk. unfold Math_random, roundDown.
  set (u := inject_Z m / 2 ^ k).
  pose proof (pow2_pos k) as Hpk.
  assert (0 <= inject_Z m) as Hm0.
  { change 0 with (inject_Z 0). rewrite <- Zle_Qle. lia. }
  assert (inject_Z m < 2 * 2 ^ 52) as Hm1.
  { rewrite <- pow2_succ. change (52 + 1)%Z with 53%Z.
    rewrite <- (Zpower_Qpower 2 53) by lia. rewrite <- Zlt_Qlt. lia. }
  assert (0 <= u) as Hu0.
  { apply Qle_shift_div_l; [done|]. by rewrite Qmult_0_l. }
  destruct (Qle_bool u 0) eqn:Hle; [apply Qle_bool_iff in Hle; lra|].
  assert (~ u <= 0) as Hn by (rewrite <- Qle_bool_iff; congruence).
  apply Qnot_le_lt in Hn.
  set (q := quantum u).
  pose proof (pow2_pos q) as Hpq.
  assert (k <= q)%Z as Hkq.
  { destruct (Z.le_gt_cases k q) as [|Hlt]; [done|exfalso].
    destruct (quantum_unit u Hn) as [Hb|Hb]; fold q in Hb; [|lia].
    assert (2 ^ k == 2 ^ q * 2 ^ (k - q)) as Hsplit.
    { rewrite <- pow2_add. by replace (q + (k - q))%Z with k by lia. }
    assert (2 <= 2 ^ (k - q)) as Hge by (apply (pow2_le 1); lia).
    pose proof (pow2_pos (k - q)) as Hpd.
    assert (u * 2 ^ q * 2 ^ (k - q) == inject_Z m) as Hu.
    { unfold u. rewrite Hsplit. qfield. }
    assert (2 ^ 52 * 2 <= u * 2 ^ q * 2 ^ (k - q)) as Hlow; [|lra].
    apply Qmult_le_compat_nonneg; split; try done; lra. }
  assert (0 < inject_Z (2 ^ (q - k))) as Hpos.
  { change 0 with (inject_Z 0). rewrite <- Zlt_Qlt. apply Z.pow_pos_nonneg; lia. }
  assert (2 ^ q == 2 ^ k * inject_Z (2 ^ (q - k))) as Hsplit.
  { rewrite Zpower_Qpower by lia. change (inject_Z 2) with 2.
    rewrite <- pow2_add. by replace (k + (q - k))%Z with q by lia. }
  assert (u * 2 ^ q == inject_Z (m * 2 ^ (q - k))) as Hy.
  { rewrite inject_Z_mult, Hsplit. unfold u. qfield. }
  rewrite Hy, Qfloor_Z, inject_Z_mult, Hsplit. unfold u. qfield.
Qed.

(** Below [2^32] the rounding error of a product is below [2^-21]. *)
Lemma roundNearest_close (x : Q) :
  0 <= x < 2 ^ 32 ->
  x - / 2 ^ 21 <= roundNearest x /\ roundNearest x <= x + / 2 ^ 21.
Proof.
  intros [Hx0 Hx1]. unfold roundNearest.
  pose proof (pow2_pos 21) as H21.
  assert (0 < / 2 ^ 21) as Hinv by (by apply Qinv_lt_0_compat).
  destruct (Qcompare_spec x 0) as [He|Hl|Hg]; [split; lra|lra|].
  unfold roundPos. set (q := quantum x).
  pose proof (pow2_pos q) as Hp.
  destruct (nearestEven_bounds (x * 2 ^ q)) as [Hlb Hub].
  assert (2 ^ 21 <= 2 ^ q) as Hq.
  { apply pow2_le.
    destruct (quantum_unit x Hg) as [Hu|Hu]; fold q in Hu; [|lia].
    assert (20 < q)%Z; [|lia].
    apply (Qpower_lt_compat_l_inv 2); [|done].
    apply (Qmult_lt_l _ _ (2 ^ 32)); [apply pow2_pos|].
    rewrite <- pow2_add. change (32 + 20)%Z with 52%Z.
    eapply Qle_lt_trans; [exact Hu|]. by apply Qmult_lt_compat_r. }
  set (Pq := 2 ^ q) in *. set (P := 2 ^ 21) in *.
  set (m := inject_Z (nearestEven (x * Pq))) in *.
  assert (/ Pq <= / P) as Hinvq.
  { apply Qle_shift_inv_r; [done|].
    apply (Qmult_le_r _ _ P); [done|].
    assert (/ P * Pq * P == Pq) as -> by qfield. lra. }
  assert (m / Pq == x + (m - x * Pq) * / Pq) as -> by qfield.
  assert (- (1 # 2) <= m - x * Pq <= 1 # 2) as [Hd1 Hd2] by (split; lra).
  assert (0 < / Pq) as HiPq by (by apply Qinv_lt_0_compat).
  assert ((m - x * Pq) * / Pq <= (1 # 2) * / Pq) as Hu1.
  { by apply Qmult_le_compat_r; [|apply Qlt_le_weak]. }
  assert (- (1 # 2) * / Pq <= (m - x * Pq) * / Pq) as Hu2.
  { by apply Qmult_le_compat_r; [|apply Qlt_le_weak]. }
  split; lra.
Qed.

(** Each position stands for the draws whose exact product with [n] lies in
    its unit interval, up to the rounding error. *)
Lemma floorMul_share (u : Q) (n pos : nat) :
  0 <= u < 1 -> (0 < n)%nat -> (Z.of_nat n < 2 ^ 32)%Z ->
  let x := Math_random u * inject_Z (Z.of_nat n) in
  (floorMul u n = pos ->
   inject_Z (Z.of_nat pos) - / 2 ^ 21 <= x
   /\ x < inject_Z (Z.of_nat pos) + 1 + / 2 ^ 21)
  /\ (inject_Z (Z.of_nat pos) + / 2 ^ 21 <= x
      /\ x < inject_Z (Z.of_nat pos) + 1 - / 2 ^ 21 ->
      floorMul u n = pos).
Proof.
  intros Hu Hn Hbig x.
  destruct (roundDown_range u (proj1 Hu)) as [Hr0 Hr1].
  fold (Math_random u) in Hr0, Hr1.
  set (N := inject_Z (Z.of_nat n)) in *.
  assert (1 <= N) as HN.
  { unfold N. change 1 with (inject_Z 1). rewrite <- Zle_Qle. lia. }
  assert (N < 2 ^ 32) as HN'.
  { unfold N. rewrite <- (Zpower_Qpower 2 32) by lia. by rewrite <- Zlt_Qlt. }
  assert (0 <= x) as Hx0 by (apply Qmult_le_0_compat; lra).
  assert (x <= N) as Hx1.
  { unfold x. rewrite <- (Qmult_1_l N) at 2. apply Qmult_le_compat_r; lra. }
  destruct (roundNearest_close x) as [Hc1 Hc2]; [split; lra|].
  unfold floorMul. fold N. fold x.
  set (r := roundNearest x) in *.
  pose proof (Qfloor_le r) as Hf1. pose proof (Qlt_floor r) as Hf2.
  rewrite inject_Z_plus in Hf2. change (inject_Z 1) with 1 in Hf2.
  split.
  - intros <-. 
    assert (0 <= r) as Hr.
    { destruct (Qlt_le_dec 0 x) as [Hpos|Hz].
      - unfold r, roundNearest. destruct (Qcompare_spec x 0); [lra|lra|].
        by apply roundPos_nonneg.
      - unfold r, roundNearest. destruct (Qcompare_spec x 0); lra. }
    assert (0 <= Qfloor r)%Z as Hfl.
    { rewrite <- (Qfloor_Z 0). by apply Qfloor_resp_le. }
    rewrite Z2Nat.id by done. split; lra.
  - intros [Hlo Hhi].
    assert (Qfloor r = Z.of_nat pos) as ->; [|apply Nat2Z.id].
    assert (Z.of_nat pos <= Qfloor r)%Z.
    { rewrite <- (Qfloor_Z (Z.of_nat pos)). apply Qfloor_resp_le. lra. }
    assert (Qfloor r < Z.of_nat pos + 1)%Z; [|lia].
    rewrite Zlt_Qlt, inject_Z_plus. change (inject_Z 1) with 1. lra.
Qed.

(** Every position below [n] is drawn by some Number below one. *)
Lemma floorMul_onto (n pos : nat) :
  (pos < n)%nat -> (Z.of_nat n < 2 ^ 32)%Z ->
  exists u, 0 <= u < 1 /\ Math_random u == u /\ floorMul u n = pos.
Proof.
  intros Hpos Hbig.
  set (c := (((2 * Z.of_nat pos + 1) * 2 ^ 52 + Z.of_nat n - 1) / Z.of_nat n)%Z).
  assert (0 < Z.of_nat n)%Z as Hn by lia.
  assert ((2 * Z.of_nat pos + 1) * 2 ^ 52 <= c * Z.of_nat n
          < (2 * Z.of_nat pos + 1) * 2 ^ 52 + Z.of_nat n)%Z as [Hc1 Hc2].
  { unfold c.
    pose proof (Z.div_mod ((2 * Z.of_nat pos + 1) * 2 ^ 52 + Z.of_nat n - 1)
                  (Z.of_nat n) ltac:(lia)) as Hdm.
    pose proof (Z.mod_pos_bound ((2 * Z.of_nat pos + 1) * 2 ^ 52 + Z.of_nat n - 1)
                  (Z.of_nat n) Hn) as Hmod.
    lia. }
  assert (0 <= c < 2 ^ 53)%Z as Hc.
  { split.
    - unfold c. apply Z.div_pos; lia.
    - assert (c * Z.of_nat n < 2 ^ 53 * Z.of_nat n)%Z; [|nia].
      change (2 ^ 53)%Z with (2 * 2 ^ 52)%Z. nia. }
  pose proof (pow2_pos 53) as H53.
  pose proof (Math_random_Number c 53 Hc ltac:(lia)) as Hex.
  set (u := inject_Z c / 2 ^ 53) in *.
  assert (0 <= u < 1) as Hu.
  { split.
    - apply Qle_shift_div_l; [done|]. rewrite Qmult_0_l.
      change 0 with (inject_Z 0). rewrite <- Zle_Qle. lia.
    - apply Qlt_shift_div_r; [done|]. rewrite Qmult_1_l.
      rewrite <- (Zpower_Qpower 2 53) by lia. rewrite <- Zlt_Qlt. lia. }
  exists u. split; [done|]. split; [done|].
  apply (floorMul_share u n pos Hu); [lia|done|].
  rewrite Hex.
  set (N := inject_Z (Z.of_nat n)). set (p := inject_Z (Z.of_nat pos)).
  assert (u * N == inject_Z (c * Z.of_nat n) / 2 ^ 53) as Hx.
  { rewrite inject_Z_mult. unfold u, N. qfield. }
  assert ((2 * p + 1) * 2 ^ 52 <= inject_Z (c * Z.of_nat n)) as Hq1.
  { unfold p. rewrite <- (Zpower_Qpower 2 52) by lia.
    change 2 with (inject_Z 2) at 1. change 1 with (inject_Z 1).
    rewrite <- inject_Z_mult, <- inject_Z_plus, <- inject_Z_mult.
    by rewrite <- Zle_Qle. }
  assert (inject_Z (c * Z.of_nat n) < (2 * p + 1) * 2 ^ 52 + N) as Hq2.
  { unfold p, N. rewrite <- (Zpower_Qpower 2 52) by lia.
    change 2 with (inject_Z 2) at 1. change 1 with (inject_Z 1).
    rewrite <- inject_Z_mult, <- inject_Z_plus, <- inject_Z_mult, <- inject_Z_plus.
    by rewrite <- Zlt_Qlt. }
  assert (N < 2 ^ 32) as HN.
  { unfold N. rewrite <- (Zpower_Qpower 2 32) by lia. by rewrite <- Zlt_Qlt. }
  rewrite Hx. set (M := inject_Z (c * Z.of_nat n)) in *.
  assert (2 ^ 53 == 2 * 2 ^ 52) as E53 by (by rewrite <- pow2_succ).
  assert (2 ^ 52 == 2 ^ 32 * 2 ^ 20) as E52 by (by rewrite <- pow2_add).
  assert (2 ^ 21 == 2 * 2 ^ 20) as E21 by (by rewrite <- pow2_succ).
  assert (2 ^ 32 == 4096 * 2 ^ 20) as E32 by (by vm_compute).
  pose proof (pow2_pos 20) as H20. pose proof (pow2_pos 52) as H52.
  pose proof (pow2_pos 21) as H21. pose proof (pow2_pos 32) as H32.
  split.
  - apply Qle_shift_div_l; [done|].
    apply Qle_trans with ((2 * p + 1) * 2 ^ 52); [|done].
    rewrite E53.
    assert ((p + / 2 ^ 21) * (2 * 2 ^ 52) == (2 * p + 1) * 2 ^ 52
              - (2 ^ 52 - 2 * 2 ^ 52 * / 2 ^ 21)) as -> by qfield.
    assert (2 * 2 ^ 52 * / 2 ^ 21 == 2 ^ 32) as ->.
    { rewrite E52, E21. qfield. }
    assert (2 ^ 32 <= 2 ^ 52) by (by apply pow2_le). lra.
  - apply Qlt_shift_div_r; [done|].
    eapply Qlt_le_trans; [exact Hq2|].
    rewrite E53.
    assert ((p + 1 - / 2 ^ 21) * (2 * 2 ^ 52) == (2 * p + 1) * 2 ^ 52
              + (2 ^ 52 - 2 * 2 ^ 52 * / 2 ^ 21)) as -> by qfield.
    assert (2 * 2 ^ 52 * / 2 ^ 21 == 2 ^ 32) as ->.
    { rewrite E52, E21. qfield. }
    assert (2 * 2 ^ 32 <= 2 ^ 52); [|lra].
    rewrite <- pow2_succ. by apply pow2_le.
Qed.
End Doubles.

Section EasyMedium.
Implicit Types (s : GameState) (b : array) (u : Q) (p : player).

Lemma getRandomMove_full u s :
  emptyCells (board s) = [] -> getRandomMove u s = None.
Proof.
  intros H. unfold getRandomMove. by rewrite emptyIndices_emptyCells, H.
Qed.

Lemma getRandomMove_inv u s k :
  getRandomMove u s = Some k -> board s !! k = Some Null.
Proof.
  unfold getRandomMove. rewrite emptyIndices_emptyCells.
  destruct (length (emptyCells (board s)) =? 0); [done|].
  intros H. apply In_emptyCells, list_elem_of_In.
  by eapply list_elem_of_lookup_2.
Qed.

Lemma getRandomMove_draw u s :
  (0 <= u < 1)%Q -> emptyCells (board s) <> [] ->
  exists k,
    getRandomMove u s = Some k
    /\ emptyCells (board s) !! floorMul u (length (emptyCells (board s))) = Some k.
Proof.
  intros Hu Hne. unfold getRandomMove. rewrite emptyIndices_emptyCells.
  destruct (emptyCells (board s)) as [|i rest] eqn:E; [done|].
  destruct (lookup_lt_is_Some_2 (i :: rest)
              (floorMul u (length (i :: rest)))) as [k Hk].
  { apply floorMul_lt; [done|simpl; lia]. }
  exists k. by rewrite Hk.
Qed.

(** A scan with early return yields the lowest index that passes the
    test. *)
Lemma find_seq_Some (P : nat -> bool) n : forall k i,
  find P (seq k n) = Some i
  <-> k <= i < k + n /\ P i = true /\ forall j, k <= j < i -> P j = false.
Proof.
  induction n as [|n IH]; intros k i; simpl.
  - split; [done|lia].
  - destruct (P k) eqn:E.
    + split.
      * intros [= <-]. repeat split; try done; lia.
      * intros (Hi & HP & Hlow). f_equal.
        destruct (decide (k = i)) as [|Hne]; [done|].
        rewrite Hlow in E by lia. done.
    + rewrite IH. split; intros (Hi & HP & Hlow).
      * split; [lia|]. split; [done|].
        intros j Hj. destruct (decide (j = k)) as [->|]; [done|].
        apply Hlow. lia.
      * assert (i <> k) by congruence.
        split; [lia|]. split; [done|]. intros j Hj. apply Hlow. lia.
Qed.

Lemma find_seq_None (P : nat -> bool) n : forall k,
  find P (seq k n) = None <-> forall j, k <= j < k + n -> P j = false.
Proof.
  induction n as [|n IH]; intros k; simpl.
  - split; [intros; lia|done].
  - destruct (P k) eqn:E.
    + split; [done|]. intros H. rewrite H in E by lia. done.
    + rewrite IH. split; intros H j Hj.
      * destruct (decide (j = k)) as [->|]; [done|]. apply H. lia.
      * apply H. lia.
Qed.

(** The winner check reads the array through [get] only. *)
Lemma checkWinner_ext (a a' : array) size p :
  (forall i, get a i = get a' i) ->
  checkWinner a size p = checkWinner a' size p.
Proof.
  intros H.
  assert (forall start step,
            checkLine a size p start step = checkLine a' size p start step)
    as Hline.
  { intros. unfold checkLine, Array_from. f_equal.
    apply map_ext. intros. apply H. }
  unfold checkWinner.
  rewrite (existsb_ext_in _
             (fun r => truthy (get a' (r * size))
                       && checkLine a' size p (r * size) 1))
    by (intros; by rewrite H, Hline).
  rewrite (existsb_ext_in
             (fun c => truthy (get a c) && checkLine a size p c size)
             (fun c => truthy (get a' c) && checkLine a' size p c size))
    by (intros; by rewrite H, Hline).
  rewrite H, Hline. destruct size as [|k]; [done|]. by rewrite H, Hline.
Qed.

Lemma get_js_set_place b i j p :
  i < length b ->
  get (js_set (spread b) i (Mark p)) j = get (place b i p) j.
Proof.
  intros Hi. destruct (decide (i = j)) as [<-|Hne].
  - by rewrite get_js_set_eq, get_place_eq.
  - by rewrite get_js_set_ne, get_spread, get_place_ne.
Qed.

(** The test of the win loop and of the block loop. *)
Lemma completes_true s p i :
  completes s p i = true
  <-> board s !! i = Some Null
      /\ checkWinner (place (board s) i p) (boardSize s) p = true.
Proof.
  unfold completes. rewrite andb_true_iff, is_null_true, get_Null.
  split; intros [Hi Hw]; (split; [done|]);
    assert (i < length (board s)) by (by eapply lookup_lt_Some).
  - rewrite <- Hw. symmetry. apply checkWinner_ext.
    intros j. by apply get_js_set_place.
  - rewrite <- Hw. apply checkWinner_ext.
    intros j. by apply get_js_set_place.
Qed.

Lemma completes_false_ge s p i :
  length (board s) <= i -> completes s p i = false.
Proof.
  intros H. unfold completes. by rewrite get_ge.
Qed.

Lemma getMediumMove_inv u s k :
  getMediumMove u s = Some k -> board s !! k = Some Null.
Proof.
  unfold getMediumMove.
  destruct (find (completes s O) _) as [i|] eqn:EO.
  { intros [= <-]. apply find_some in EO as [_ H].
    by apply completes_true in H as [? _]. }
  destruct (find (completes s X) _) as [i|] eqn:EX.
  { intros [= <-]. apply find_some in EX as [_ H].
    by apply completes_true in H as [? _]. }
  destruct (is_null (get (board s) _)) eqn:Ec.
  { intros [= <-]. by apply get_Null, is_null_true. }
  apply getRandomMove_inv.
Qed.

Lemma getMediumMove_full u s :
  emptyCells (board s) = [] -> getMediumMove u s = None.
Proof.
  intros Hfull.
  assert (forall i, board s !! i <> Some Null) as Hno.
  { intros i Hi. apply In_emptyCells in Hi. by rewrite Hfull in Hi. }
  unfold getMediumMove.
  destruct (find (completes s O) _) as [i|] eqn:EO.
  { apply find_some in EO as [_ H].
    apply completes_true in H as [H _]. by apply Hno in H. }
  destruct (find (completes s X) _) as [i|] eqn:EX.
  { apply find_some in EX as [_ H].
    apply completes_true in H as [H _]. by apply Hno in H. }
  destruct (is_null (get (board s) _)) eqn:Ec.
  { apply is_null_true, get_Null in Ec. by apply Hno in Ec. }
  by apply getRandomMove_full.
Qed.

Lemma emptyCells_nil b : emptyCells b = [] <-> forall i, b !! i <> Some Null.
Proof.
  split.
  - intros H i Hi. apply In_emptyCells in Hi. by rewrite H in Hi.
  - intros H. destruct (emptyCells b) as [|i rest] eqn:E; [done|].
    exfalso. apply (H i), In_emptyCells. rewrite E. by left.
Qed.
End EasyMedium.

(** * The properties of the specification *)

(** C4.  For a board of side [size >= 1] and a player [p], [checkWinner]
    answers [true] exactly when [p]'s mark fills one of the [2 * size + 2]
    candidate lines (the rows, the columns, the main diagonal and the
    anti-diagonal, each of [size] cells); the lines are examined in that
    order and the first full line decides. *)
Theorem checkWinner_candidate_lines (arr : array) (size : nat) (p : player) :
  0 < size ->
  length (candidateLines size) = 2 * size + 2
  /\ candidateLines size
     = map (rowLine size) (seq 0 size) ++ map (colLine size) (seq 0 size)
       ++ [mainDiagonal size; antiDiagonal size]
  /\ (forall line, line ∈ candidateLines size -> length line = size)
  /\ (checkWinner arr size p = true <-> hasLine arr size p)
  /\ checkWinner arr size p = existsb (lineFull arr p) (candidateLines size).
Proof.
  intros Hsize. split; [apply length_candidateLines|].
  split; [done|]. split; [apply candidateLines_length|].
  split; [by apply checkWinner_hasLine|by apply checkWinner_existsb].
Qed.

Lemma checkWinner_candidate_lines_witness :
  length (candidateLines 3) = 2 * 3 + 2
  /\ candidateLines 3
     = map (rowLine 3) (seq 0 3) ++ map (colLine 3) (seq 0 3)
       ++ [mainDiagonal 3; antiDiagonal 3]
  /\ (forall line, line ∈ candidateLines 3 -> length line = 3)
  /\ (checkWinner [Mark O; Null; Mark X; Null; Mark X; Mark O; Mark X; Null; Null]
                  3 X = true
      <-> hasLine [Mark O; Null; Mark X; Null; Mark X; Mark O; Mark X; Null; Null]
                  3 X)
  /\ checkWinner [Mark O; Null; Mark X; Null; Mark X; Mark O; Mark X; Null; Null]
                 3 X
     = existsb (lineFull [Mark O; Null; Mark X; Null; Mark X; Mark O; Mark X;
                          Null; Null] X)
               (candidateLines 3).
Proof.
  apply (checkWinner_candidate_lines
           [Mark O; Null; Mark X; Null; Mark X; Mark O; Mark X; Null; Null] 3 X).
  lia.
Defined.

Lemma every_truthy_occupied (arr : array) :
  Hole ∉ arr ->
  every truthy arr = true
  <-> forall i, i < length arr -> exists p, arr !! i = Some (Mark p).
Proof.
  intros Hdense. unfold every. rewrite forallb_forall. split.
  - intros H i Hi. destruct (lookup_lt_is_Some_2 arr i Hi) as [c Hc].
    specialize (H c). rewrite <- list_elem_of_In in H.
    specialize (H (list_elem_of_lookup_2 _ _ _ Hc)).
    destruct c as [| | |q]; try done; [|eauto].
    exfalso. apply Hdense. by eapply list_elem_of_lookup_2.
  - intros H c Hc. apply list_elem_of_In, list_elem_of_lookup_1 in Hc as [i Hi].
    destruct (H i (lookup_lt_Some _ _ _ Hi)) as [p Hp].
    rewrite Hi in Hp. by injection Hp as ->.
Qed.

(** C10.  [isDraw] holds exactly when every cell is occupied and neither
    player has a complete line; the full board X O X / O X O / O X O is a
    draw. *)
Theorem isDraw_full_without_line (arr : array) (size : nat) :
  0 < size -> Hole ∉ arr ->
  (isDraw arr size = true
   <-> (forall i, i < length arr -> exists p, arr !! i = Some (Mark p))
       /\ ~ hasLine arr size X /\ ~ hasLine arr size O)
  /\ isDraw [Mark X; Mark O; Mark X; Mark O; Mark X; Mark O; Mark O; Mark X; Mark O]
            3 = true.
Proof.
  intros Hsize Hdense. split; [|done].
  unfold isDraw. rewrite !andb_true_iff, !negb_true_iff.
  rewrite (every_truthy_occupied arr Hdense).
  rewrite <- !(checkWinner_hasLine arr size) by done.
  rewrite !not_true_iff_false. tauto.
Qed.

Lemma isDraw_full_without_line_witness :
  (isDraw [Mark X; Mark X; Mark O; Mark O; Mark O; Mark X; Mark X; Mark O; Mark X]
          3 = true
   <-> (forall i,
          i < length [Mark X; Mark X; Mark O; Mark O; Mark O; Mark X; Mark X;
                      Mark O; Mark X] ->
          exists p,
            [Mark X; Mark X; Mark O; Mark O; Mark O; Mark X; Mark X; Mark O;
             Mark X] !! i = Some (Mark p))
       /\ ~ hasLine [Mark X; Mark X; Mark O; Mark O; Mark O; Mark X; Mark X;
                     Mark O; Mark X] 3 X
       /\ ~ hasLine [Mark X; Mark X; Mark O; Mark O; Mark O; Mark X; Mark X;
                     Mark O; Mark X] 3 O)
  /\ isDraw [Mark X; Mark O; Mark X; Mark O; Mark X; Mark O; Mark O; Mark X; Mark O]
            3 = true.
Proof.
  apply (isDraw_full_without_line
           [Mark X; Mark X; Mark O; Mark O; Mark O; Mark X; Mark X; Mark O; Mark X]
           3).
  - lia.
  - intros H. repeat (apply elem_of_cons in H as [H|H]; [discriminate|]).
    by apply elem_of_nil in H.
Defined.

(** C3.  On a board with an empty cell, [getBestMove] returns the empty
    index whose one-ply simulation has the highest minimax value, the
    lowest such index when several share it.  The value [minimax] computes
    is the recursive evaluation [specMinimax] for the side [O]: [10 - depth]
    when [O] has a line, [depth - 10] when [X] has one, [0] on a full board
    without a line, and otherwise the maximum (when [O] moves) or minimum
    (when [X] moves) over the positions one ply ahead. *)
Theorem getBestMove_first_highest (s : GameState) :
  isBoard (board s) -> (exists i, board s !! i = Some Null) ->
  let value j :=
    specMinimax O (boardSize s) (length (board s)) (place (board s) j O) 0 false
  in
  (forall fuel (h : heap) (arr : loc) (a : array) depth isMaximizing,
     h !! arr = Some a -> length (emptyCells a) < fuel ->
     minimax (boardSize s) fuel h arr depth isMaximizing
     = Some (specMinimax O (boardSize s) (length a) a depth isMaximizing, h))
  /\ exists i,
       getBestMove s = Some i /\ board s !! i = Some Null
       /\ (forall j, board s !! j = Some Null -> sle (value j) (value i))
       /\ (forall j, j < i -> board s !! j = Some Null -> slt (value j) (value i)).
Proof.
  intros Hb Hempty value. split.
  - intros fuel h arr a depth isMaximizing Hl Hfuel.
    apply minimax_specMinimax; [done|done|apply length_emptyCells_le].
  - destruct (getBestMove_first_best s Hb Hempty) as (i & Hi & Hnull & Hle & Hlt).
    assert (forall j, board s !! j = Some Null ->
              candidateScore (boardSize s) (board s) j = value j) as Hval.
    { intros j Hj. apply candidateScore_place; [done|].
      by eapply lookup_lt_Some. }
    exists i. split; [done|]. split; [done|]. split.
    + intros j Hj. rewrite <- !Hval by done. by apply Hle.
    + intros j Hji Hj. rewrite <- !Hval by done. by apply Hlt.
Qed.

Lemma getBestMove_first_highest_witness :
  let s := mkState [Mark X; Mark X; Mark O; Mark O; Mark O; Mark X; Mark X;
                    Null; Null] O 0 0 true true 3 "hard" NoMsg in
  let value j :=
    specMinimax O (boardSize s) (length (board s)) (place (board s) j O) 0 false
  in
  (forall fuel (h : heap) (arr : loc) (a : array) depth isMaximizing,
     h !! arr = Some a -> length (emptyCells a) < fuel ->
     minimax (boardSize s) fuel h arr depth isMaximizing
     = Some (specMinimax O (boardSize s) (length a) a depth isMaximizing, h))
  /\ exists i,
       getBestMove s = Some i /\ board s !! i = Some Null
       /\ (forall j, board s !! j = Some Null -> sle (value j) (value i))
       /\ (forall j, j < i -> board s !! j = Some Null -> slt (value j) (value i)).
Proof.
  intros s.
  apply (getBestMove_first_highest s).
  - solve_isBoard.
  - exists 7. reflexivity.
Defined.

(** C7.  [minimax] returns with the heap exactly as it received it: every
    mark written during the exploration has been taken back, so the array
    it was given holds what it held.  [getBestMove] searches copies only:
    every array that existed when it was called, the board among them, is
    unchanged when it returns. *)
Theorem minimax_restores_array (size fuel : nat) (h : heap) (arr : loc)
    (a : array) (depth : Z) (isMaximizing : bool) :
  h !! arr = Some a -> length (emptyCells a) < fuel ->
  (exists v, minimax size fuel h arr depth isMaximizing = Some (v, h))
  /\ (exists move h',
        getBestMove_heap size h arr = Some (move, h')
        /\ forall l c, h !! l = Some c -> h' !! l = Some c).
Proof.
  intros Hl Hfuel. split.
  - eexists. apply (minimax_specMinimax size fuel (length a)); [done|done|].
    apply length_emptyCells_le.
  - destruct (getBestMove_heap_scan size h arr a Hl) as [ext Hext].
    eexists _, _. split; [exact Hext|].
    intros l c Hc. rewrite lookup_app_l; [done|]. by eapply lookup_lt_Some.
Qed.

Lemma minimax_restores_array_witness :
  (exists v,
     minimax 3 3 [[Mark X; Mark X; Mark O; Mark O; Mark O; Mark X; Mark X;
                   Null; Null]] 0 0 true
     = Some (v, [[Mark X; Mark X; Mark O; Mark O; Mark O; Mark X; Mark X;
                  Null; Null]]))
  /\ (exists move h',
        getBestMove_heap 3 [[Mark X; Mark X; Mark O; Mark O; Mark O; Mark X;
                             Mark X; Null; Null]] 0 = Some (move, h')
        /\ forall l c,
             [[Mark X; Mark X; Mark O; Mark O; Mark O; Mark X; Mark X; Null;
               Null]] !! l = Some c -> h' !! l = Some c).
Proof.
  apply (minimax_restores_array 3 3 _ 0
           [Mark X; Mark X; Mark O; Mark O; Mark O; Mark X; Mark X; Null; Null]).
  - reflexivity.
  - simpl. lia.
Defined.

(** C8.  For a board of [size * size] cells and each of the difficulties
    easy, medium and hard, the selected move is [null] exactly when the
    board has no empty cell, and a selected index is in range and names an
    empty cell. *)
Theorem aiMove_selects_empty_cell (u : Q) (s : GameState) :
  isBoard (board s) ->
  length (board s) = boardSize s * boardSize s ->
  (0 <= u < 1)%Q ->
  aiDifficulty s ∈ ["easy"; "medium"; "hard"] ->
  (aiMove u s = None <-> forall i, board s !! i <> Some Null)
  /\ (forall i, aiMove u s = Some i ->
        i < boardSize s * boardSize s /\ board s !! i = Some Null).
Proof.
  intros Hb Hlen Hu Hd.
  assert (forall i, board s !! i = Some Null -> i < boardSize s * boardSize s)
    as Hrange.
  { intros i Hi. rewrite <- Hlen. by eapply lookup_lt_Some. }
  assert (getRandomMove u s = None -> forall i, board s !! i <> Some Null)
    as Hrandom.
  { intros Hnone. apply emptyCells_nil.
    destruct (emptyCells (board s)) as [|i rest] eqn:E; [done|].
    destruct (getRandomMove_draw u s Hu) as (k & Hk & _); [by rewrite E|].
    congruence. }
  unfold aiMove.
  repeat (apply elem_of_cons in Hd as [->|Hd]); [| | |by apply elem_of_nil in Hd];
    simpl.
  - split; [split; [done|]|].
    + intros Hfull. by apply getRandomMove_full, emptyCells_nil.
    + intros i Hi. apply getRandomMove_inv in Hi. auto.
  - split; [split|].
    + intros Hnone. apply Hrandom.
      unfold getMediumMove in Hnone.
      destruct (find (completes s O) _); [done|].
      destruct (find (completes s X) _); [done|].
      by destruct (is_null _).
    + intros Hfull. by apply getMediumMove_full, emptyCells_nil.
    + intros i Hi. apply getMediumMove_inv in Hi. auto.
  - split; [split|].
    + intros Hnone i Hi.
      destruct (getBestMove_first_best s Hb (ex_intro _ i Hi)) as (k & Hk & _).
      congruence.
    + apply getBestMove_None.
    + intros i Hi.
      destruct (emptyCells (board s)) as [|i0 rest] eqn:E.
      { rewrite getBestMove_None in Hi; [done|]. by apply emptyCells_nil. }
      assert (board s !! i0 = Some Null) as Hi0.
      { apply In_emptyCells. rewrite E. by left. }
      destruct (getBestMove_first_best s Hb (ex_intro _ i0 Hi0))
        as (k & Hk & Hnull & _).
      assert (i = k) as -> by congruence. auto.
Qed.

Lemma aiMove_selects_empty_cell_witness :
  let s := mkState [Mark X; Mark X; Mark O; Mark O; Mark O; Mark X; Mark X;
                    Null; Null] O 0 0 true true 3 "medium" NoMsg in
  (aiMove (1 # 2) s = None <-> forall i, board s !! i <> Some Null)
  /\ (forall i, aiMove (1 # 2) s = Some i ->
        i < boardSize s * boardSize s /\ board s !! i = Some Null).
Proof.
  intros s. apply (aiMove_selects_empty_cell (1 # 2) s).
  - solve_isBoard.
  - reflexivity.
  - split; [discriminate|reflexivity].
  - simpl. set_solver.
Defined.

Lemma find_completes_Some (s : GameState) (p : player) :
  (exists i, completes s p i = true) ->
  exists k,
    find (completes s p) (seq 0 (length (board s))) = Some k
    /\ completes s p k = true
    /\ forall j, j < k -> completes s p j = false.
Proof.
  intros [i Hi].
  destruct (find (completes s p) (seq 0 (length (board s)))) as [k|] eqn:E.
  - apply find_seq_Some in E as (_ & Hk & Hlow).
    exists k. split; [done|]. split; [done|]. intros j Hj. apply Hlow. lia.
  - exfalso. rewrite find_seq_None in E.
    destruct (Nat.lt_ge_cases i (length (board s))) as [Hlt|Hge].
    + rewrite E in Hi by lia. done.
    + by rewrite completes_false_ge in Hi.
Qed.

Lemma find_completes_None (s : GameState) (p : player) :
  (forall i, completes s p i = false) ->
  find (completes s p) (seq 0 (length (board s))) = None.
Proof. intros H. apply find_seq_None. intros j _. apply H. Qed.

(** C5.  The medium selector on a board with an empty cell: the lowest
    empty index at which [O] completes a line, if there is one; otherwise
    the lowest empty index at which [X] would complete a line; otherwise
    the centre index [size * size / 2] when that cell is empty; otherwise
    the answer of [getRandomMove], the empty cell at position
    [Math.floor(Math.random() * n)] among the [n] empty cells.  On a board
    of fewer than [2^32] cells that position is [pos] only if the exact
    product of the Number drawn and [n] lies within [2^-21] of
    [[pos, pos + 1)], and it is [pos] whenever the product lies in that
    interval at least [2^-21] away from its ends: up to the rounding of the
    product, the positions take equal shares of the draws.  On the boards
    O O _ / X X _ / _ _ _ and X X _ / _ _ _ / _ _ _ the answer is 2. *)
Theorem getMediumMove_priority_chain (u : Q) (s : GameState) :
  (exists i, board s !! i = Some Null) ->
  (0 <= u < 1)%Q ->
  let wins p i :=
    board s !! i = Some Null
    /\ checkWinner (place (board s) i p) (boardSize s) p = true in
  let center := boardSize s * boardSize s / 2 in
  let n := length (emptyCells (board s)) in
  ((exists i, wins O i) ->
   exists k, getMediumMove u s = Some k /\ wins O k
             /\ forall j, j < k -> ~ wins O j)
  /\ ((forall i, ~ wins O i) -> (exists i, wins X i) ->
      exists k, getMediumMove u s = Some k /\ wins X k
                /\ forall j, j < k -> ~ wins X j)
  /\ ((forall i, ~ wins O i) -> (forall i, ~ wins X i) ->
      board s !! center = Some Null -> getMediumMove u s = Some center)
  /\ ((forall i, ~ wins O i) -> (forall i, ~ wins X i) ->
      board s !! center <> Some Null ->
      exists k,
        getMediumMove u s = Some k /\ board s !! k = Some Null
        /\ getMediumMove u s = getRandomMove u s
        /\ emptyCells (board s) !! floorMul u n = Some k
        /\ ((Z.of_nat n < 2 ^ 32)%Z ->
            forall pos,
              let x := (Math_random u * inject_Z (Z.of_nat n))%Q in
              (floorMul u n = pos ->
               (inject_Z (Z.of_nat pos) - / 2 ^ 21 <= x
                /\ x < inject_Z (Z.of_nat pos) + 1 + / 2 ^ 21)%Q)
              /\ ((inject_Z (Z.of_nat pos) + / 2 ^ 21 <= x
                   /\ x < inject_Z (Z.of_nat pos) + 1 - / 2 ^ 21)%Q ->
                  floorMul u n = pos)))
  /\ (forall cp sx so active ai difficulty msg,
        getMediumMove u
          (mkState [Mark O; Mark O; Null; Mark X; Mark X; Null; Null; Null; Null]
                   cp sx so active ai 3 difficulty msg) = Some 2)
  /\ (forall cp sx so active ai difficulty msg,
        getMediumMove u
          (mkState [Mark X; Mark X; Null; Null; Null; Null; Null; Null; Null]
                   cp sx so active ai 3 difficulty msg) = Some 2).
Proof.
  intros Hempty Hu wins center n.
  assert (forall p i, completes s p i = true <-> wins p i) as Hwins
    by (intros; apply completes_true).
  assert (forall p, (forall i, ~ wins p i) -> forall i, completes s p i = false)
    as Hnone.
  { intros p H i. apply not_true_iff_false. rewrite Hwins. apply H. }
  assert (forall p, (exists i, wins p i) ->
            exists k, find (completes s p) (seq 0 (length (board s))) = Some k
                      /\ wins p k /\ forall j, j < k -> ~ wins p j) as Hsome.
  { intros p [i Hi]. apply Hwins in Hi.
    destruct (find_completes_Some s p (ex_intro _ i Hi)) as (k & Hk & Hwk & Hlow).
    exists k. split; [done|]. split; [by apply Hwins|].
    intros j Hj Hwj. apply Hwins in Hwj. rewrite Hlow in Hwj by done. done. }
  split; [|split; [|split; [|split; [|split]]]].
  - intros HO. destruct (Hsome O HO) as (k & Hk & Hrest).
    exists k. unfold getMediumMove. by rewrite Hk.
  - intros HO HX. destruct (Hsome X HX) as (k & Hk & Hrest).
    exists k. unfold getMediumMove.
    by rewrite (find_completes_None s O (Hnone O HO)), Hk.
  - intros HO HX Hc. unfold getMediumMove.
    rewrite (find_completes_None s O (Hnone O HO)).
    rewrite (find_completes_None s X (Hnone X HX)).
    fold center. apply get_Null in Hc. by rewrite Hc.
  - intros HO HX Hc.
    assert (emptyCells (board s) <> []) as Hne.
    { destruct Hempty as [i Hi]. apply In_emptyCells in Hi.
      intros Hnil. by rewrite Hnil in Hi. }
    assert (getMediumMove u s = getRandomMove u s) as Hsame.
    { unfold getMediumMove.
      rewrite (find_completes_None s O (Hnone O HO)).
      rewrite (find_completes_None s X (Hnone X HX)).
      fold center. destruct (is_null (get (board s) center)) eqn:E; [|done].
      apply is_null_true, get_Null in E. done. }
    destruct (getRandomMove_draw u s Hu Hne) as (k & Hk & Hpos).
    exists k. split; [by rewrite Hsame|].
    split; [by eapply getRandomMove_inv|].
    split; [done|]. split; [done|].
    intros Hbig pos. apply floorMul_share; [done| |done].
    unfold n. destruct (emptyCells (board s)); [done|simpl; lia].
  - intros. reflexivity.
  - intros. reflexivity.
Qed.

Lemma getMediumMove_priority_chain_witness :
  let u := (1 # 2)%Q in
  let s := mkState [Mark X; Mark O; Null; Null; Mark X; Null; Null; Null; Mark O]
                   O 0 0 true true 3 "medium" NoMsg in
  let wins p i :=
    board s !! i = Some Null
    /\ checkWinner (place (board s) i p) (boardSize s) p = true in
  let center := boardSize s * boardSize s / 2 in
  let n := length (emptyCells (board s)) in
  ((exists i, wins O i) ->
   exists k, getMediumMove u s = Some k /\ wins O k
             /\ forall j, j < k -> ~ wins O j)
  /\ ((forall i, ~ wins O i) -> (exists i, wins X i) ->
      exists k, getMediumMove u s = Some k /\ wins X k
                /\ forall j, j < k -> ~ wins X j)
  /\ ((forall i, ~ wins O i) -> (forall i, ~ wins X i) ->
      board s !! center = Some Null -> getMediumMove u s = Some center)
  /\ ((forall i, ~ wins O i) -> (forall i, ~ wins X i) ->
      board s !! center <> Some Null ->
      exists k,
        getMediumMove u s = Some k /\ board s !! k = Some Null
        /\ getMediumMove u s = getRandomMove u s
        /\ emptyCells (board s) !! floorMul u n = Some k
        /\ ((Z.of_nat n < 2 ^ 32)%Z ->
            forall pos,
              let x := (Math_random u * inject_Z (Z.of_nat n))%Q in
              (floorMul u n = pos ->
               (inject_Z (Z.of_nat pos) - / 2 ^ 21 <= x
                /\ x < inject_Z (Z.of_nat pos) + 1 + / 2 ^ 21)%Q)
              /\ ((inject_Z (Z.of_nat pos) + / 2 ^ 21 <= x
                   /\ x < inject_Z (Z.of_nat pos) + 1 - / 2 ^ 21)%Q ->
                  floorMul u n = pos)))
  /\ (forall cp sx so active ai difficulty msg,
        getMediumMove u
          (mkState [Mark O; Mark O; Null; Mark X; Mark X; Null; Null; Null; Null]
                   cp sx so active ai 3 difficulty msg) = Some 2)
  /\ (forall cp sx so active ai difficulty msg,
        getMediumMove u
          (mkState [Mark X; Mark X; Null; Null; Null; Null; Null; Null; Null]
                   cp sx so active ai 3 difficulty msg) = Some 2).
Proof.
  intros u s.
  apply (getMediumMove_priority_chain u s).
  - by exists 2.
  - split; [discriminate|reflexivity].
Defined.

(** ** States of the component *)

Section Reachable.
Implicit Types (s : GameState) (p q : player).

Lemma hasLine_fill_null n size p :
  0 < size -> ~ hasLine (Array_fill_null n) size p.
Proof.
  intros Hsize (line & Hin & Hfull).
  apply candidateLines_length in Hin.
  destruct line as [|i line]; [simpl in Hin; lia|].
  specialize (Hfull i (list_elem_of_here _ _)).
  unfold Array_fill_null in Hfull.
  apply lookup_replicate in Hfull as [? _]. done.
Qed.

Lemma linesConsistent_fresh s b :
  0 < boardSize s -> board s = Array_fill_null b -> linesConsistent s.
Proof.
  intros Hsize Hb. unfold linesConsistent. rewrite Hb.
  split; [done|]. split.
  - intros _ p. by apply hasLine_fill_null.
  - intros p H. by apply hasLine_fill_null in H.
Qed.

Lemma other_ne p : p <> other p.
Proof. by destruct p. Qed.

Lemma linesConsistent_click s idx :
  linesConsistent s -> linesConsistent (handleCellClick s idx).
Proof.
  intros (Hsize & Hactive & Hone). unfold handleCellClick.
  destruct (negb (gameActive s) || truthy (get (board s) idx)) eqn:E;
    [done|].
  apply orb_false_iff in E as [Ea _]. apply negb_false_iff in Ea.
  specialize (Hactive Ea).
  set (p := currentPlayer s).
  set (nb := js_set (spread (board s)) idx (Mark p)).
  assert (~ hasLine nb (boardSize s) (other p)) as Hother.
  { intros H. apply hasLine_js_set_other in H; [|apply other_ne].
    by apply Hactive in H. }
  assert (forall q, hasLine nb (boardSize s) q ->
            ~ hasLine nb (boardSize s) (other q)) as Hone'.
  { intros q Hq. destruct (decide (q = p)) as [->|Hne]; [done|].
    assert (q = other p) as -> by (destruct p, q; done). done. }
  destruct (checkWinner nb (boardSize s) p) eqn:EW;
    [by repeat split|].
  destruct (isDraw nb (boardSize s)); [by repeat split|].
  split; [done|]. split; [|done]. simpl. intros _ q.
  destruct (decide (q = p)) as [->|Hne].
  - rewrite <- checkWinner_hasLine by done. by rewrite EW.
  - assert (q = other p) as -> by (destruct p, q; done). done.
Qed.

Lemma linesConsistent_ai u s :
  linesConsistent s -> linesConsistent (makeAIMove u s).
Proof.
  intros H. unfold makeAIMove. destruct (aiMove u s); [|done].
  by apply linesConsistent_click.
Qed.

Lemma reachable_linesConsistent s : reachable s -> linesConsistent s.
Proof.
  induction 1 as [|s idx _ IH|s u _ IH _ _ _|s _ IH|s n _ IH Hn|s _ IH
                 |s d _ IH].
  - by apply (linesConsistent_fresh _ 9); [simpl; lia|].
  - by apply linesConsistent_click.
  - by apply linesConsistent_ai.
  - destruct IH as (Hsize & _).
    by apply (linesConsistent_fresh _ (boardSize s * boardSize s)).
  - unfold setBoardSize. destruct (n =? boardSize s); [done|].
    apply (linesConsistent_fresh _ (n * n)); [|done]. simpl.
    unfold BOARD_SIZES in Hn.
    repeat (apply elem_of_cons in Hn as [->|Hn]; [lia|]).
    by apply elem_of_nil in Hn.
  - destruct IH as (Hsize & _).
    by apply (linesConsistent_fresh _ (boardSize s * boardSize s)).
  - done.
Qed.
End Reachable.

(** C9.  In every state the component can reach, [X] and [O] do not both
    have a complete line: either nobody has one, or exactly one player
    has, and the winner check agrees. *)
Theorem reachable_single_winner (s : GameState) :
  reachable s ->
  ~ (hasLine (board s) (boardSize s) X /\ hasLine (board s) (boardSize s) O)
  /\ ~ (checkWinner (board s) (boardSize s) X = true
        /\ checkWinner (board s) (boardSize s) O = true)
  /\ ((forall p, ~ hasLine (board s) (boardSize s) p)
      \/ exists p, hasLine (board s) (boardSize s) p
                   /\ forall q, hasLine (board s) (boardSize s) q -> q = p).
Proof.
  intros Hreach.
  destruct (reachable_linesConsistent s Hreach) as (Hsize & _ & Hone).
  assert (~ (hasLine (board s) (boardSize s) X
             /\ hasLine (board s) (boardSize s) O)) as Hnot.
  { intros [HX HO]. by apply (Hone X HX). }
  split; [done|]. split.
  - rewrite !checkWinner_hasLine by done. done.
  - destruct (checkWinner (board s) (boardSize s) X) eqn:EX;
      [|destruct (checkWinner (board s) (boardSize s) O) eqn:EO].
    + right. exists X. apply checkWinner_hasLine in EX; [|done].
      split; [done|]. intros [] Hq; [done|]. exfalso. by apply Hnot.
    + right. exists O. apply checkWinner_hasLine in EO; [|done].
      split; [done|]. intros [] Hq; [|done]. exfalso. by apply Hnot.
    + left. intros [] Hp; apply checkWinner_hasLine in Hp; congruence.
Qed.

Lemma reachable_single_winner_witness :
  let s := handleCellClick (handleCellClick mounted 4) 0 in
  ~ (hasLine (board s) (boardSize s) X /\ hasLine (board s) (boardSize s) O)
  /\ ~ (checkWinner (board s) (boardSize s) X = true
        /\ checkWinner (board s) (boardSize s) O = true)
  /\ ((forall p, ~ hasLine (board s) (boardSize s) p)
      \/ exists p, hasLine (board s) (boardSize s) p
                   /\ forall q, hasLine (board s) (boardSize s) q -> q = p).
Proof.
  intros s. apply (reachable_single_winner s).
  unfold s. apply reach_click, reach_click, reach_mounted.
Defined.

(** ** Clicks that are not moves *)

(** Past the end of the board the click is taken: the copy of the board
    grows up to the clicked index. *)
Lemma handleCellClick_past_end (s : GameState) (idx : nat) :
  gameActive s = true -> length (board s) <= idx ->
  board (handleCellClick s idx)
  = spread (board s) ++ replicate (idx - length (board s)) Hole
    ++ [Mark (currentPlayer s)].
Proof.
  intros Ha Hidx. unfold handleCellClick.
  rewrite Ha, get_ge by done. simpl.
  assert (js_set (spread (board s)) idx (Mark (currentPlayer s))
          = spread (board s) ++ replicate (idx - length (board s)) Hole
            ++ [Mark (currentPlayer s)]) as Hset.
  { unfold js_set. rewrite length_spread.
    destruct (Nat.ltb_spec idx (length (board s))); [lia|done]. }
  destruct (checkWinner _ _ _); [done|]. by destruct (isDraw _ _).
Qed.

(** C1, as the code has it.  A click on an occupied cell, or a click when
    the game is over, raises no error: the call returns and the state, the
    board with it, is what it was. *)
Theorem handleCellClick_ignores_illegal (s : GameState) (idx : nat) :
  gameActive s = false \/ (exists p, board s !! idx = Some (Mark p)) ->
  applyMove s idx = Returns s
  /\ board (handleCellClick s idx) = board s.
Proof.
  intros H. assert (handleCellClick s idx = s) as Hsame.
  { unfold handleCellClick. destruct H as [->|[p Hp]]; [done|].
    apply get_Mark in Hp. rewrite Hp. simpl. by rewrite orb_true_r. }
  unfold applyMove. by rewrite Hsame.
Qed.

Lemma handleCellClick_ignores_illegal_witness :
  applyMove (mkState [Mark X; Null; Null; Null; Null; Null; Null; Null; Null]
                     O 0 0 true false 3 "easy" NoMsg) 0
  = Returns (mkState [Mark X; Null; Null; Null; Null; Null; Null; Null; Null]
                     O 0 0 true false 3 "easy" NoMsg)
  /\ board (handleCellClick
              (mkState [Mark X; Null; Null; Null; Null; Null; Null; Null; Null]
                       O 0 0 true false 3 "easy" NoMsg) 0)
     = [Mark X; Null; Null; Null; Null; Null; Null; Null; Null].
Proof.
  apply (handleCellClick_ignores_illegal
           (mkState [Mark X; Null; Null; Null; Null; Null; Null; Null; Null]
                    O 0 0 true false 3 "easy" NoMsg) 0).
  right. exists X. reflexivity.
Defined.

(** C1 as stated fails: the click on the occupied cell 0 returns instead
    of failing with [IllegalMove], and so does the click on index 9 of the
    fresh 3x3 board, which moreover changes the board. *)
Lemma handleCellClick_raises_no_IllegalMove :
  ~ (forall (s : GameState) (idx : nat),
       (length (board s) <= idx
        \/ (exists p, board s !! idx = Some (Mark p))
        \/ gameActive s = false) ->
       applyMove s idx = Throws IllegalMove
       /\ board (handleCellClick s idx) = board s).
Proof.
  intros H.
  destruct (H (mkState [Mark X; Null; Null; Null; Null; Null; Null; Null; Null]
                       O 0 0 true false 3 "easy" NoMsg) 0) as [Hthrow _].
  { right. left. by exists X. }
  discriminate Hthrow.
Qed.

Lemma handleCellClick_past_end_example :
  applyMove mounted 9
  = Returns (mkState [Null; Null; Null; Null; Null; Null; Null; Null; Null;
                      Mark X] O 0 0 true false 3 "easy" NoMsg).
Proof. reflexivity. Qed.

(** ** The hard selector of the source and of the specification *)

Section SelectorLink.
Implicit Types (a b c : score).

Lemma sgt_trans a b c : sgt a b = true -> sgt b c = true -> sgt a c = true.
Proof.
  destruct a, b, c; simpl; try done. rewrite !Z.ltb_lt. lia.
Qed.

Lemma sgt_false_trans a b c :
  sgt a b = false -> sgt b c = false -> sgt a c = false.
Proof.
  destruct a, b, c; simpl; try done. rewrite !Z.ltb_ge. lia.
Qed.

(** The scan of [getBestMove] keeps the first candidate with the highest
    score among those that beat the score it started with. *)
Lemma keepBest_firstMax (f : nat -> score) (cands : list nat) :
  forall st,
    fold_left (keepBest f) cands st
    = match firstMax (map (fun i => (i, f i)) cands) with
      | Some (j, w) => if sgt w (fst st) then (w, Some j) else st
      | None => st
      end.
Proof.
  induction cands as [|i rest IH]; intros [bs mv]; [done|].
  simpl. rewrite IH. unfold keepBest. simpl.
  destruct (firstMax (map (fun i => (i, f i)) rest)) as [[j w]|]; [|done].
  destruct (sgt (f i) bs) eqn:E1; simpl.
  - destruct (sgt w (f i)) eqn:E2; simpl; [|by rewrite E1].
    by rewrite (sgt_trans _ _ _ E2 E1).
  - destruct (sgt w (f i)) eqn:E2; simpl; [done|].
    by rewrite E1, (sgt_false_trans _ _ _ E2 E1).
Qed.

Lemma firstMax_In (scored : list (nat * score)) j w :
  firstMax scored = Some (j, w) -> In (j, w) scored.
Proof.
  revert j w. induction scored as [|[i v] rest IH]; intros j w; [done|].
  simpl. destruct (firstMax rest) as [[j' w']|].
  - destruct (sgt w' v); intros [= <- <-]; [right; by apply IH|by left].
  - intros [= <- <-]. by left.
Qed.

(** On a board the hard selector of the source is the hard selector of
    the specification for the side [O]. *)
Lemma getBestMove_specSelectHard (s : GameState) :
  isBoard (board s) ->
  getBestMove s = specSelectHard O (boardSize s) (board s).
Proof.
  intros Hb. rewrite getBestMove_scan, keepBest_firstMax.
  unfold specSelectHard.
  rewrite (map_ext_in
             (fun i => (i, specMinimax O (boardSize s) (length (board s))
                             (place (board s) i O) 0 false))
             (fun i => (i, candidateScore (boardSize s) (board s) i))).
  2:{ intros i Hi. apply In_emptyCells in Hi. f_equal. symmetry.
      apply candidateScore_place; [done|]. by eapply lookup_lt_Some. }
  destruct (firstMax _) as [[j w]|] eqn:E; [|done].
  apply firstMax_In, in_map_iff in E as (i & [= -> <-] & Hi).
  apply In_emptyCells in Hi.
  destruct (candidateScore_finite (boardSize s) _ _ Hb Hi) as [z ->].
  done.
Qed.
End SelectorLink.

(** ** The evaluation on the 3x3 board agrees *)

Section Quick.
Implicit Types (b : array) (p ai : player) (s : GameState).

Lemma is_player_get b i c p :
  b !! i = Some c -> is_player p (get b i) = is_player p c.
Proof. intros H. unfold get. rewrite H. by destruct c. Qed.

Lemma wins3_checkWinner p b : wins3 p b = checkWinner b 3 p.
Proof.
  destruct b as [|c0 [|c1 [|c2 [|c3 [|c4 [|c5 [|c6 [|c7 [|c8 [|c9 b]]]]]]]]]];
    try reflexivity.
  rewrite checkWinner_existsb by lia.
  set (b := [c0; c1; c2; c3; c4; c5; c6; c7; c8]).
  cbv [candidateLines rowLine colLine mainDiagonal antiDiagonal cellIndex
       seq map app existsb lineFull forallb Nat.mul Nat.add Nat.sub].
  rewrite (is_player_get b 0 c0 p eq_refl), (is_player_get b 1 c1 p eq_refl),
    (is_player_get b 2 c2 p eq_refl), (is_player_get b 3 c3 p eq_refl),
    (is_player_get b 4 c4 p eq_refl), (is_player_get b 5 c5 p eq_refl),
    (is_player_get b 6 c6 p eq_refl), (is_player_get b 7 c7 p eq_refl),
    (is_player_get b 8 c8 p eq_refl).
  unfold b, wins3.
  destruct (is_player p c0), (is_player p c1), (is_player p c2),
    (is_player p c3), (is_player p c4), (is_player p c5),
    (is_player p c6), (is_player p c7), (is_player p c8); reflexivity.
Qed.

Lemma emptyCells_cons c b :
  emptyCells (c :: b)
  = (if is_null c then [0] else []) ++ map S (emptyCells b).
Proof.
  unfold emptyCells. simpl length. rewrite <- cons_seq, <- seq_shift.
  simpl. assert (is_null (get (c :: b) 0) = is_null c) as ->
    by (unfold get; simpl; by destruct c).
  assert (forall l, List.filter (fun i => is_null (get (c :: b) i)) (map S l)
                    = map S (List.filter (fun i => is_null (get b i)) l)) as ->.
  { induction l as [|i l IH]; [done|]. simpl.
    change (get (c :: b) (S i)) with (get b i).
    destruct (is_null (get b i)); simpl; by rewrite IH. }
  by destruct (is_null c).
Qed.

Lemma successors_place p b :
  successors p b = map (fun i => place b i p) (emptyCells b).
Proof.
  induction b as [|c b IH]; [done|].
  simpl successors. rewrite emptyCells_cons, map_app, IH, !map_map.
  f_equal. by destruct (is_null c).
Qed.

Lemma fastMinimax_specMinimax ai plies :
  forall b d m, fastMinimax ai plies b d m = specMinimax ai 3 plies b d m.
Proof.
  induction plies as [|n IH]; intros b d m.
  - simpl. by rewrite !wins3_checkWinner.
  - rewrite specMinimax_eq. simpl fastMinimax.
    rewrite !wins3_checkWinner, !successors_place, !map_map.
    destruct (checkWinner b 3 ai); [done|].
    destruct (checkWinner b 3 (other ai)); [done|].
    destruct (every truthy b); [done|].
    destruct m; f_equal; apply map_ext; intros; apply IH.
Qed.

Lemma fold_left_keepBest_ext (f g : nat -> score) (l : list nat) st :
  (forall i, f i = g i) ->
  fold_left (keepBest f) l st = fold_left (keepBest g) l st.
Proof.
  intros H. revert st. induction l as [|i l IH]; intros st; [done|].
  simpl. unfold keepBest at 2 4. by rewrite H, IH.
Qed.

Lemma quickBestMove_getBestMove s : quickBestMove s = getBestMove s.
Proof.
  unfold quickBestMove. destruct (Nat.eqb_spec (boardSize s) 3) as [H|]; [|done].
  rewrite getBestMove_scan, H. unfold fastBestMove. f_equal.
  apply fold_left_keepBest_ext. intros i. apply fastMinimax_specMinimax.
Qed.

Lemma quickSelectHard_specSelectHard ai s :
  quickSelectHard ai s = specSelectHard ai (boardSize s) (board s).
Proof.
  unfold quickSelectHard.
  destruct (Nat.eqb_spec (boardSize s) 3) as [->|]; [|done].
  unfold fastSelectHard, specSelectHard. do 2 f_equal.
  apply map_ext. intros i. by rewrite fastMinimax_specMinimax.
Qed.
End Quick.

(** ** Games against the hard opponent *)

Section HardGames.
Implicit Types (s : GameState) (u : Q).

(** At difficulty hard the move is the one of [getBestMove]; the random
    draw is not used. *)
Lemma makeAIMove_hard u s :
  aiDifficulty s = "hard" ->
  makeAIMove u s
  = match quickBestMove s with
    | Some i => handleCellClick s i
    | None => s
    end.
Proof.
  intros H. unfold makeAIMove, aiMove.
  by rewrite H, quickBestMove_getBestMove.
Qed.

Lemma exploreHard_sound n :
  forall s, exploreHard n s = true ->
  forall k s', nsteps hardStep k s s' -> k < n /\ notLost s' = true.
Proof.
  induction n as [|n IH]; intros s Hs k s' Hsteps; [done|].
  simpl in Hs. apply andb_true_iff in Hs as [Hok Hnext].
  inversion Hsteps as [|k' ? y ? Hstep Hrest]; subst.
  { split; [lia|done]. }
  assert (exploreHard n y = true) as Hy.
  { inversion Hstep as [? idx Ha Hp Hidx|? u Ha Hp Hai Hd]; subst;
      rewrite Ha, Hp in Hnext.
    - rewrite forallb_forall in Hnext.
      specialize (Hnext idx). apply get_Null in Hidx as Hget.
      rewrite Hget in Hnext. apply Hnext, in_seq.
      apply lookup_lt_Some in Hidx. lia.
    - rewrite Hai, Hd in Hnext. simpl in Hnext.
      by rewrite (makeAIMove_hard u _ Hd). }
  destruct (IH y Hy k' s' Hrest). split; [lia|done].
Qed.

Lemma notLost_progress s :
  notLost s = true -> gameActive s = true -> exists s', hardStep s s'.
Proof.
  unfold notLost. intros H Ha. apply andb_true_iff in H as [_ H].
  rewrite Ha in H. destruct (winnerMsg s) as [|[]|]; try done.
  simpl in H. apply andb_true_iff in H as [H Hd].
  apply andb_true_iff in H as [Hempty Hai].
  apply String.eqb_eq in Hd.
  destruct (currentPlayer s) eqn:Hp.
  - destruct (emptyCells (board s)) as [|i rest] eqn:E; [done|].
    exists (handleCellClick s i). apply hard_human; [done|done|].
    apply In_emptyCells. rewrite E. by left.
  - exists (makeAIMove 0 s). by apply hard_ai.
Qed.
End HardGames.

(** The exhaustive exploration of the games on the 3x3 board against the
    hard opponent succeeds. *)
Lemma exploreHard_start : exploreHard 10 (newGame 3 true "hard") = true.
Proof. vm_cast_no_check (eq_refl true). Qed.

(** C2.  In every game from the empty 3x3 board in which [O]'s moves are
    those of the hard selector and [X] plays any legal moves, [X] never
    has a line and is never announced as winner; the game is over after at
    most nine moves, and when it is over [O] has won or it is a draw. *)
Theorem hard_opponent_never_loses (k : nat) (s : GameState) :
  nsteps hardStep k (newGame 3 true "hard") s ->
  checkWinner (board s) (boardSize s) X = false
  /\ winnerMsg s <> WinsMsg X
  /\ (gameActive s = false ->
      (winnerMsg s = WinsMsg O /\ checkWinner (board s) (boardSize s) O = true)
      \/ (winnerMsg s = DrawMsg /\ isDraw (board s) (boardSize s) = true))
  /\ k <= 9
  /\ (gameActive s = true -> exists s', hardStep s s').
Proof.
  intros Hsteps.
  destruct (exploreHard_sound 10 _ exploreHard_start k s Hsteps) as [Hk Hok].
  split; [|split; [|split; [|split; [lia|by apply notLost_progress]]]].
  - unfold notLost in Hok. apply andb_true_iff in Hok as [H _].
    by apply negb_true_iff in H.
  - unfold notLost in Hok. apply andb_true_iff in Hok as [_ H].
    intros Hmsg. by rewrite Hmsg in H.
  - intros Ha. unfold notLost in Hok. apply andb_true_iff in Hok as [_ H].
    rewrite Ha in H. destruct (winnerMsg s) as [|[]|]; try done.
    + left. by split.
    + right. by split.
Qed.

Lemma hard_opponent_never_loses_witness :
  let s := mkState [Mark X; Mark X; Mark O; Mark X; Mark O; Null; Mark O; Null; Null]
                   O 0 1 false true 3 "hard" (WinsMsg O) in
  nsteps hardStep 6 (newGame 3 true "hard") s
  /\ checkWinner (board s) (boardSize s) X = false
  /\ winnerMsg s <> WinsMsg X
  /\ (gameActive s = false ->
      (winnerMsg s = WinsMsg O /\ checkWinner (board s) (boardSize s) O = true)
      \/ (winnerMsg s = DrawMsg /\ isDraw (board s) (boardSize s) = true))
  /\ 6 <= 9
  /\ (gameActive s = true -> exists s', hardStep s s').
Proof.
  intros s.
  pose (s0 := newGame 3 true "hard").
  pose (s1 := handleCellClick s0 0).
  pose (s2 := mkState [Mark X; Null; Null; Null; Mark O; Null; Null; Null; Null]
                      X 0 0 true true 3 "hard" NoMsg).
  pose (s3 := handleCellClick s2 1).
  pose (s4 := mkState [Mark X; Mark X; Mark O; Null; Mark O; Null; Null; Null; Null]
                      X 0 0 true true 3 "hard" NoMsg).
  pose (s5 := handleCellClick s4 3).
  assert (nsteps hardStep 6 s0 s) as Hgame.
  { apply (nsteps_l _ _ _ s1); [apply (hard_human s0 0); reflexivity|].
    apply (nsteps_l _ _ _ s2).
    { replace s2 with (makeAIMove 0 s1) by (vm_compute; reflexivity).
      apply hard_ai; reflexivity. }
    apply (nsteps_l _ _ _ s3); [apply (hard_human s2 1); reflexivity|].
    apply (nsteps_l _ _ _ s4).
    { replace s4 with (makeAIMove 0 s3) by (vm_compute; reflexivity).
      apply hard_ai; reflexivity. }
    apply (nsteps_l _ _ _ s5); [apply (hard_human s4 3); reflexivity|].
    apply (nsteps_l _ _ _ s).
    { replace s with (makeAIMove 0 s5) by (vm_compute; reflexivity).
      apply hard_ai; reflexivity. }
    apply nsteps_O. }
  split; [exact Hgame|].
  apply (hard_opponent_never_loses 6 s Hgame).
Defined.

(** ** Games in which both sides search *)

Section SearchGames.
Implicit Types (s : GameState).

Lemma searchStep_searchMove s s' :
  searchStep s s' <-> gameActive s = true /\ searchMove s = Some s'.
Proof.
  unfold searchMove. split.
  - intros [? i Ha Hp Hi|? u Ha Hp Hai Hd]; (split; [done|]); rewrite Hp.
    + by rewrite quickSelectHard_specSelectHard, Hi.
    + by rewrite Hai, Hd, (makeAIMove_hard u _ Hd).
  - intros [Ha Hmove]. destruct (currentPlayer s) eqn:Hp.
    + rewrite quickSelectHard_specSelectHard in Hmove.
      destruct (specSelectHard X _ _) as [i|] eqn:Hi; [|done].
      injection Hmove as <-. by apply search_X.
    + destruct (isAIMode s) eqn:Hai; [|done].
      destruct (String.eqb (aiDifficulty s) "hard") eqn:Hd; [|done].
      injection Hmove as <-. apply String.eqb_eq in Hd.
      rewrite <- (makeAIMove_hard 0 s Hd). by apply search_O.
Qed.

Lemma searchTrace_reachable n :
  forall s s', s' ∈ searchTrace n s -> rtc searchStep s s'.
Proof.
  induction n as [|n IH]; intros s s' Hin; [by apply elem_of_nil in Hin|].
  simpl in Hin. apply elem_of_cons in Hin as [->|Hin]; [done|].
  destruct (gameActive s) eqn:Ha; [|by apply elem_of_nil in Hin].
  destruct (searchMove s) as [y|] eqn:Hy; [|by apply elem_of_nil in Hin].
  eapply rtc_l; [|by apply IH]. by apply searchStep_searchMove.
Qed.

Lemma searchTrace_complete n :
  forall s s', rtc searchStep s s' -> length (searchTrace n s) < n ->
  s' ∈ searchTrace n s.
Proof.
  induction n as [|n IH]; intros s s' Hrtc Hlen; [lia|].
  simpl in *. destruct Hrtc as [|? y ? Hstep Hrtc]; [by left|].
  apply searchStep_searchMove in Hstep as [Ha Hy].
  rewrite Ha, Hy in *. right. apply IH; [done|lia].
Qed.

Lemma searchEndsInDraw_inv n s :
  searchEndsInDraw n s = true ->
  length (searchTrace n s) < n
  /\ (forall s', s' ∈ searchTrace n s -> gameActive s' = false ->
        winnerMsg s' = DrawMsg /\ isDraw (board s') (boardSize s') = true)
  /\ (exists s', s' ∈ searchTrace n s /\ gameActive s' = false).
Proof.
  unfold searchEndsInDraw. generalize (searchTrace n s). intros trace H.
  apply andb_true_iff in H as [H Hends].
  apply andb_true_iff in H as [Hlen Hall].
  apply Nat.ltb_lt in Hlen. rewrite forallb_forall in Hall.
  split; [done|]. split.
  - intros s' Hin Ha. apply list_elem_of_In, Hall in Hin.
    rewrite Ha in Hin. simpl in Hin.
    apply andb_true_iff in Hin as [Hmsg Hdraw].
    by destruct (winnerMsg s').
  - apply existsb_exists in Hends as (s' & Hin & Ha).
    exists s'. split; [by apply list_elem_of_In|by apply negb_true_iff].
Qed.
End SearchGames.

(** The game of the two searches on the 3x3 board is over within eleven
    moves and ends in a draw. *)
Lemma searchEndsInDraw_start :
  searchEndsInDraw 12 (newGame 3 true "hard") = true.
Proof. vm_cast_no_check (eq_refl true). Qed.

(** C6.  The game on the 3x3 board in which [X] plays the moves of the
    hard selector for [X] and [O] those of the hard selector of the source
    ends, and it ends in a draw.  The selector for [X] is the one of the
    specification, which for the side [O] is [getBestMove]. *)
Theorem search_against_search_draws :
  (forall s,
     rtc searchStep (newGame 3 true "hard") s -> gameActive s = false ->
     winnerMsg s = DrawMsg /\ isDraw (board s) (boardSize s) = true)
  /\ (exists s, rtc searchStep (newGame 3 true "hard") s /\ gameActive s = false)
  /\ (forall s,
        isBoard (board s) ->
        getBestMove s = specSelectHard O (boardSize s) (board s)).
Proof.
  destruct (searchEndsInDraw_inv 12 _ searchEndsInDraw_start)
    as (Hlen & Hall & s & Hin & Ha).
  split; [|split].
  - intros s' Hrtc Ha'. apply Hall; [|exact Ha'].
    apply searchTrace_complete; [exact Hrtc|exact Hlen].
  - exists s. split; [|exact Ha].
    apply searchTrace_reachable with 12. exact Hin.
  - apply getBestMove_specSelectHard.
Qed.

(** * Further properties of the code *)

(** ** Marks and moves *)

Section Moves.
Implicit Types (s : GameState) (b : array) (p q : player) (i j : nat).

Lemma forallb_ext_all {A} (f g : A -> bool) (l : list A) :
  (forall x, f x = g x) -> forallb f l = forallb g l.
Proof. intros H. induction l as [|x l IH]; simpl; [done|]. by rewrite H, IH. Qed.

Lemma BOARD_SIZES_pos n : n ∈ BOARD_SIZES -> 0 < n.
Proof.
  unfold BOARD_SIZES. intros H.
  repeat (apply elem_of_cons in H as [->|H]; [lia|]).
  by apply elem_of_nil in H.
Qed.

Lemma lineFull_place_other b p q i line :
  q <> p -> is_player p (get b i) = false ->
  lineFull (place b i q) p line = lineFull b p line.
Proof.
  intros Hqp Hi. unfold lineFull. apply forallb_ext_all. intros j.
  destruct (decide (i = j)) as [<-|Hne]; [|by rewrite get_place_ne].
  rewrite Hi. destruct (Nat.lt_ge_cases i (length b)).
  - rewrite get_place_eq by done. destruct q, p; done.
  - unfold place. rewrite list_insert_ge by done. done.
Qed.

Lemma lineFull_place_same b q i line :
  lineFull b q line = true -> lineFull (place b i q) q line = true.
Proof.
  unfold lineFull. rewrite !forallb_forall. intros H j Hj.
  specialize (H j Hj).
  destruct (decide (i = j)) as [<-|Hne]; [|by rewrite get_place_ne].
  destruct (Nat.lt_ge_cases i (length b)).
  - rewrite get_place_eq by done. by destruct q.
  - unfold place. rewrite list_insert_ge by done. done.
Qed.

Lemma checkWinner_place_other b size p q i :
  0 < size -> q <> p -> is_player p (get b i) = false ->
  checkWinner (place b i q) size p = checkWinner b size p.
Proof.
  intros Hsize Hqp Hi. rewrite !checkWinner_existsb by done.
  apply existsb_ext_in. intros line _. by apply lineFull_place_other.
Qed.

Lemma checkWinner_place_same b size q i :
  0 < size -> checkWinner b size q = true ->
  checkWinner (place b i q) size q = true.
Proof.
  intros Hsize. rewrite !checkWinner_existsb by done.
  rewrite !existsb_exists. intros (line & Hin & Hfull).
  exists line. split; [done|]. by apply lineFull_place_same.
Qed.

Lemma marksOf_place_same b i p :
  b !! i = Some Null -> marksOf p (place b i p) = S (marksOf p b).
Proof.
  unfold marksOf, place. revert i.
  induction b as [|c b IH]; intros [|i] Hi; try done; simpl in *.
  - injection Hi as ->. simpl. by destruct p.
  - destruct (is_player p c); simpl; by rewrite IH.
Qed.

Lemma marksOf_place_other b i p q :
  q <> p -> b !! i = Some Null -> marksOf p (place b i q) = marksOf p b.
Proof.
  intros Hqp. unfold marksOf, place. revert i.
  induction b as [|c b IH]; intros [|i] Hi; try done; simpl in *.
  - injection Hi as ->. simpl. by destruct q, p.
  - destruct (is_player p c); simpl; by rewrite IH.
Qed.

Lemma marksOf_fill_null p n : marksOf p (Array_fill_null n) = 0.
Proof. unfold marksOf, Array_fill_null. by induction n. Qed.

Lemma isBoard_fill_null n : isBoard (Array_fill_null n).
Proof. apply Forall_replicate. by left. Qed.

Lemma checkWinner_fill_null n size p :
  0 < size -> checkWinner (Array_fill_null n) size p = false.
Proof.
  intros Hsize. apply not_true_iff_false. rewrite checkWinner_hasLine by done.
  by apply hasLine_fill_null.
Qed.

(** A cell of a board that is not occupied is empty. *)
Lemma isBoard_not_truthy b i :
  isBoard b -> i < length b -> truthy (get b i) = false -> b !! i = Some Null.
Proof.
  intros Hb Hi Ht. destruct (lookup_lt_is_Some_2 b i Hi) as [c Hc].
  destruct (isBoard_lookup b i c Hb Hc) as [->|[p ->]]; [done|].
  apply get_Mark in Hc. by rewrite Hc in Ht.
Qed.

(** On a board, the copy with the mark written is the board with the mark
    placed. *)
Lemma js_set_spread_place b i p :
  isBoard b -> i < length b -> js_set (spread b) i (Mark p) = place b i p.
Proof.
  intros Hb Hi. by rewrite (isBoard_spread b Hb), js_set_in_range.
Qed.

Lemma wellPlayed_fresh s n :
  n ∈ BOARD_SIZES -> boardSize s = n -> board s = Array_fill_null (n * n) ->
  winnerMsg s = NoMsg -> gameActive s = true -> currentPlayer s = X ->
  wellPlayed s.
Proof.
  intros Hn Hsize Hb Hmsg Ha Hp.
  pose proof (BOARD_SIZES_pos n Hn) as Hpos.
  unfold wellPlayed, statusConsistent, turnParity, xMovedLast.
  rewrite Hsize, Hb, Hmsg, Ha, Hp, !marksOf_fill_null.
  split; [done|]. split; [apply isBoard_fill_null|].
  split; [apply length_replicate|]. split; [|done].
  split; [done|]. rewrite !checkWinner_fill_null by done.
  split; [done|]. split; [done|].
  unfold Array_fill_null. destruct (n * n) eqn:E; [nia|done].
Qed.

Lemma wellPlayed_click s idx :
  wellPlayed s -> idx < length (board s) -> wellPlayed (handleCellClick s idx).
Proof.
  intros (Hsz & Hb & Hlen & Hst & Hpar) Hidx. unfold handleCellClick.
  destruct (negb (gameActive s) || truthy (get (board s) idx)) eqn:E;
    [done|].
  apply orb_false_iff in E as [Ea Ht]. apply negb_false_iff in Ea.
  pose proof (isBoard_not_truthy _ _ Hb Hidx Ht) as Hnull.
  pose proof (BOARD_SIZES_pos _ Hsz) as Hpos.
  unfold statusConsistent in Hst.
  destruct (winnerMsg s) eqn:Hmsg;
    [|destruct Hst as [Hst _]; congruence|destruct Hst as [Hst _]; congruence].
  destruct Hst as (_ & HX & HO & _).
  rewrite (js_set_spread_place _ _ _ Hb Hidx).
  assert (is_player X (get (board s) idx) = false
          /\ is_player O (get (board s) idx) = false) as [HnX HnO].
  { apply get_Null in Hnull. by rewrite Hnull. }
  unfold turnParity, xMovedLast in Hpar. rewrite Ea in Hpar.
  unfold wellPlayed, statusConsistent, turnParity, xMovedLast.
  destruct (currentPlayer s) eqn:Hp; simpl in *.
  - pose proof (checkWinner_place_other (board s) (boardSize s) O X idx
                  Hpos ltac:(done) HnO) as HO'.
    rewrite HO in HO'.
    pose proof (marksOf_place_same (board s) idx X Hnull) as HmX.
    pose proof (marksOf_place_other (board s) idx O X ltac:(done) Hnull) as HmO.
    destruct (checkWinner (place (board s) idx X) (boardSize s) X) eqn:EW;
      [|destruct (isDraw (place (board s) idx X) (boardSize s)) eqn:ED];
      simpl; rewrite ?Hmsg, ?Ea, ?HmX, ?HmO; simpl;
      (split; [done|]); (split; [by apply isBoard_place|]);
      (split; [by rewrite length_place|]); (split; [|lia]).
    + done.
    + done.
    + split; [done|]. split; [done|]. split; [done|].
      unfold isDraw in ED. rewrite EW, HO' in ED. simpl in ED.
      by rewrite !andb_true_r in ED.
  - pose proof (checkWinner_place_other (board s) (boardSize s) X O idx
                  Hpos ltac:(done) HnX) as HX'.
    rewrite HX in HX'.
    pose proof (marksOf_place_same (board s) idx O Hnull) as HmO.
    pose proof (marksOf_place_other (board s) idx X O ltac:(done) Hnull) as HmX.
    destruct (checkWinner (place (board s) idx O) (boardSize s) O) eqn:EW;
      [|destruct (isDraw (place (board s) idx O) (boardSize s)) eqn:ED];
      simpl; rewrite ?Hmsg, ?Ea, ?HmX, ?HmO; simpl;
      (split; [done|]); (split; [by apply isBoard_place|]);
      (split; [by rewrite length_place|]); (split; [|lia]).
    + done.
    + done.
    + split; [done|]. split; [done|]. split; [done|].
      unfold isDraw in ED. rewrite EW, HX' in ED. simpl in ED.
      by rewrite !andb_true_r in ED.
Qed.
End Moves.

(** ** Clicks *)

Section Clicks.
Implicit Types (s : GameState) (b : array) (p q : player) (i j idx : nat).

(** The three ways a click that is taken ends. *)
Lemma handleCellClick_taken s idx :
  gameActive s = true -> truthy (get (board s) idx) = false ->
  let p := currentPlayer s in
  let nb := js_set (spread (board s)) idx (Mark p) in
  board (handleCellClick s idx) = nb
  /\ boardSize (handleCellClick s idx) = boardSize s
  /\ isAIMode (handleCellClick s idx) = isAIMode s
  /\ aiDifficulty (handleCellClick s idx) = aiDifficulty s
  /\ ((checkWinner nb (boardSize s) p = true
       /\ gameActive (handleCellClick s idx) = false
       /\ winnerMsg (handleCellClick s idx) = WinsMsg p
       /\ currentPlayer (handleCellClick s idx) = p
       /\ scoreX (handleCellClick s idx)
          = scoreX s + (if is_player X (Mark p) then 1 else 0)
       /\ scoreO (handleCellClick s idx)
          = scoreO s + (if is_player O (Mark p) then 1 else 0))
      \/ (checkWinner nb (boardSize s) p = false
          /\ isDraw nb (boardSize s) = true
          /\ gameActive (handleCellClick s idx) = false
          /\ winnerMsg (handleCellClick s idx) = DrawMsg
          /\ currentPlayer (handleCellClick s idx) = p
          /\ scoreX (handleCellClick s idx) = scoreX s
          /\ scoreO (handleCellClick s idx) = scoreO s)
      \/ (checkWinner nb (boardSize s) p = false
          /\ isDraw nb (boardSize s) = false
          /\ gameActive (handleCellClick s idx) = true
          /\ winnerMsg (handleCellClick s idx) = winnerMsg s
          /\ currentPlayer (handleCellClick s idx) = other p
          /\ scoreX (handleCellClick s idx) = scoreX s
          /\ scoreO (handleCellClick s idx) = scoreO s)).
Proof.
  intros Ha Ht p nb. unfold handleCellClick. rewrite Ha, Ht. simpl.
  fold p. fold nb.
  destruct (checkWinner nb (boardSize s) p) eqn:EW;
    [|destruct (isDraw nb (boardSize s)) eqn:ED]; simpl.
  - repeat (split; [done|]). left. repeat (split; [done|]).
    destruct p; simpl; split; lia.
  - repeat (split; [done|]). right. left. done.
  - repeat (split; [done|]). right. right. done.
Qed.

Lemma handleCellClick_ignored s idx :
  negb (gameActive s) || truthy (get (board s) idx) = true ->
  handleCellClick s idx = s.
Proof. intros H. unfold handleCellClick. by rewrite H. Qed.

Lemma handleCellClick_changes s idx :
  gameActive s = true -> truthy (get (board s) idx) = false ->
  handleCellClick s idx <> s.
Proof.
  intros Ha Ht Heq.
  destruct (handleCellClick_taken s idx Ha Ht) as (Hb & _).
  rewrite Heq in Hb.
  assert (truthy (get (board s) idx) = true) as Ht'.
  { rewrite Hb, get_js_set_eq by done. done. }
  congruence.
Qed.
End Clicks.

(** X1.  A second click on the same cell does nothing: clicking a cell
    twice leaves the state the first click produced, whatever the index
    and whether or not the first click was taken. *)
Theorem handleCellClick_twice (s : GameState) (idx : nat) :
  handleCellClick (handleCellClick s idx) idx = handleCellClick s idx.
Proof.
  destruct (negb (gameActive s) || truthy (get (board s) idx)) eqn:E.
  - by rewrite !(handleCellClick_ignored s idx E).
  - apply orb_false_iff in E as [Ea Ht]. apply negb_false_iff in Ea.
    destruct (handleCellClick_taken s idx Ea Ht) as (Hb & _).
    apply handleCellClick_ignored. rewrite Hb, get_js_set_eq by done.
    apply orb_true_r.
Qed.

(** X2.  A click on an empty cell of a board while the game goes on writes
    the mover's mark on that cell and changes no other cell; size, mode and
    difficulty stay.  The game then is won by the mover (whose score goes
    up by one, the other score staying), or drawn, or goes on with the
    other player to move and both scores as they were. *)
Theorem handleCellClick_legal_move (s : GameState) (idx : nat) :
  isBoard (board s) -> gameActive s = true -> board s !! idx = Some Null ->
  let p := currentPlayer s in
  let s' := handleCellClick s idx in
  board s' = place (board s) idx p
  /\ board s' !! idx = Some (Mark p)
  /\ (forall j, j <> idx -> board s' !! j = board s !! j)
  /\ length (board s') = length (board s)
  /\ boardSize s' = boardSize s /\ isAIMode s' = isAIMode s
  /\ aiDifficulty s' = aiDifficulty s
  /\ ((checkWinner (board s') (boardSize s) p = true
       /\ gameActive s' = false /\ winnerMsg s' = WinsMsg p
       /\ currentPlayer s' = p
       /\ scoreX s' + scoreO s' = S (scoreX s + scoreO s)
       /\ (p = X -> scoreO s' = scoreO s) /\ (p = O -> scoreX s' = scoreX s))
      \/ (checkWinner (board s') (boardSize s) p = false
          /\ isDraw (board s') (boardSize s) = true
          /\ gameActive s' = false /\ winnerMsg s' = DrawMsg
          /\ scoreX s' = scoreX s /\ scoreO s' = scoreO s)
      \/ (checkWinner (board s') (boardSize s) p = false
          /\ isDraw (board s') (boardSize s) = false
          /\ gameActive s' = true /\ currentPlayer s' = other p
          /\ winnerMsg s' = winnerMsg s
          /\ scoreX s' = scoreX s /\ scoreO s' = scoreO s)).
Proof.
  intros Hb Ha Hnull p s'.
  assert (idx < length (board s)) as Hidx by (by eapply lookup_lt_Some).
  assert (truthy (get (board s) idx) = false) as Ht.
  { apply get_Null in Hnull. by rewrite Hnull. }
  destruct (handleCellClick_taken s idx Ha Ht)
    as (Hnb & Hsize & Hai & Hd & Hcases).
  rewrite (js_set_spread_place _ _ _ Hb Hidx) in Hnb, Hcases.
  fold s' in Hnb, Hsize, Hai, Hd, Hcases. fold p in Hnb, Hcases.
  rewrite Hnb. split; [done|].
  split; [by apply list_lookup_insert_eq|].
  split; [intros j Hj; by apply list_lookup_insert_ne|].
  split; [apply length_place|]. do 3 (split; [done|]).
  destruct Hcases as [(HW & Hg & Hm & Hp & HsX & HsO)
                     |[(HW & HD & Hg & Hm & Hp & HsX & HsO)
                      |(HW & HD & Hg & Hm & Hp & HsX & HsO)]].
  - left. repeat (split; [done|]). rewrite HsX, HsO.
    destruct p; simpl; repeat split; try done; lia.
  - right. left. done.
  - right. right. done.
Qed.

Lemma handleCellClick_legal_move_witness :
  let s := mkState [Mark X; Mark X; Null; Mark O; Mark O; Null; Null; Null; Null]
                   X 2 1 true false 3 "easy" NoMsg in
  let p := currentPlayer s in
  let s' := handleCellClick s 2 in
  board s' = place (board s) 2 p
  /\ board s' !! 2 = Some (Mark p)
  /\ (forall j, j <> 2 -> board s' !! j = board s !! j)
  /\ length (board s') = length (board s)
  /\ boardSize s' = boardSize s /\ isAIMode s' = isAIMode s
  /\ aiDifficulty s' = aiDifficulty s
  /\ ((checkWinner (board s') (boardSize s) p = true
       /\ gameActive s' = false /\ winnerMsg s' = WinsMsg p
       /\ currentPlayer s' = p
       /\ scoreX s' + scoreO s' = S (scoreX s + scoreO s)
       /\ (p = X -> scoreO s' = scoreO s) /\ (p = O -> scoreX s' = scoreX s))
      \/ (checkWinner (board s') (boardSize s) p = false
          /\ isDraw (board s') (boardSize s) = true
          /\ gameActive s' = false /\ winnerMsg s' = DrawMsg
          /\ scoreX s' = scoreX s /\ scoreO s' = scoreO s)
      \/ (checkWinner (board s') (boardSize s) p = false
          /\ isDraw (board s') (boardSize s) = false
          /\ gameActive s' = true /\ currentPlayer s' = other p
          /\ winnerMsg s' = winnerMsg s
          /\ scoreX s' = scoreX s /\ scoreO s' = scoreO s)).
Proof.
  intros s.
  apply (handleCellClick_legal_move s 2).
  - solve_isBoard.
  - reflexivity.
  - reflexivity.
Defined.

(** ** States reached through the rendered page *)

Section Played.
Implicit Types (s : GameState) (u : Q) (i : nat).

Lemma getBestMove_inv s i :
  getBestMove s = Some i -> board s !! i = Some Null.
Proof.
  rewrite getBestMove_scan. unfold emptyCells.
  destruct (fold_left _ _ _) as [bs mv] eqn:E. simpl. intros ->.
  apply keepBest_scan in E as (_ & _ & Hsome).
  destruct (Hsome i eq_refl) as (_ & HP & _).
  by apply get_Null, is_null_true.
Qed.

(** Whatever the difficulty, a selected move is an empty cell. *)
Lemma aiMove_inv u s i : aiMove u s = Some i -> board s !! i = Some Null.
Proof.
  unfold aiMove.
  destruct (String.eqb _ "easy"); [apply getRandomMove_inv|].
  destruct (String.eqb _ "medium"); [apply getMediumMove_inv|].
  destruct (String.eqb _ "hard"); [apply getBestMove_inv|].
  apply getRandomMove_inv.
Qed.

Lemma getMediumMove_is_Some u s :
  (0 <= u < 1)%Q -> emptyCells (board s) <> [] ->
  is_Some (getMediumMove u s).
Proof.
  intros Hu Hne. unfold getMediumMove.
  destruct (find (completes s O) _); [done|].
  destruct (find (completes s X) _); [done|].
  destruct (is_null _); [done|].
  destruct (getRandomMove_draw u s Hu Hne) as (k & -> & _). done.
Qed.

(** On a board with an empty cell every difficulty selects a move. *)
Lemma aiMove_is_Some u s :
  isBoard (board s) -> (0 <= u < 1)%Q -> emptyCells (board s) <> [] ->
  is_Some (aiMove u s).
Proof.
  intros Hb Hu Hne.
  assert (is_Some (getRandomMove u s)) as Hrandom.
  { destruct (getRandomMove_draw u s Hu Hne) as (k & -> & _). done. }
  unfold aiMove.
  destruct (String.eqb _ "easy"); [done|].
  destruct (String.eqb _ "medium"); [by apply getMediumMove_is_Some|].
  destruct (String.eqb _ "hard"); [|done].
  destruct (emptyCells (board s)) as [|i rest] eqn:E; [done|].
  assert (board s !! i = Some Null) as Hi.
  { apply In_emptyCells. rewrite E. by left. }
  destruct (getBestMove_first_best s Hb (ex_intro _ i Hi)) as (k & -> & _).
  done.
Qed.

Lemma wellPlayed_ai u s : wellPlayed s -> wellPlayed (makeAIMove u s).
Proof.
  intros H. unfold makeAIMove. destruct (aiMove u s) as [i|] eqn:E; [|done].
  apply wellPlayed_click; [done|].
  apply aiMove_inv in E. by eapply lookup_lt_Some.
Qed.

Lemma played_wellPlayed s : played s -> wellPlayed s.
Proof.
  induction 1 as [|s idx _ IH Hidx|s u _ IH _ _ _ _|s _ IH|s n _ IH Hn|s _ IH
                 |s d _ IH].
  - by apply (wellPlayed_fresh _ 3); [set_solver|..].
  - by apply wellPlayed_click.
  - by apply wellPlayed_ai.
  - destruct IH as (Hsz & _). by apply (wellPlayed_fresh _ (boardSize s)).
  - unfold setBoardSize. destruct (n =? boardSize s); [done|].
    by apply (wellPlayed_fresh _ n).
  - destruct IH as (Hsz & _). by apply (wellPlayed_fresh _ (boardSize s)).
  - done.
Qed.

Lemma wellPlayed_active_empty s :
  wellPlayed s -> gameActive s = true -> emptyCells (board s) <> [].
Proof.
  intros (_ & Hb & _ & Hst & _) Ha. unfold statusConsistent in Hst.
  destruct (winnerMsg s);
    [|destruct Hst as [Hst _]; congruence|destruct Hst as [Hst _]; congruence].
  destruct Hst as (_ & _ & _ & Hfull).
  destruct (isBoard_not_full _ Hb Hfull) as [i Hi].
  apply In_emptyCells in Hi. intros Hnil. by rewrite Hnil in Hi.
Qed.
End Played.

(** X3.  In every state reached through the rendered page the
    announcement agrees with the board: the game goes on exactly when
    nothing is announced, and then nobody has a line and some cell is
    empty; an announced winner has a line, the other player has none, and
    the winner is the player who moved last; an announced draw is a full
    board without a line.  The board has [boardSize * boardSize] cells,
    each empty or marked, and the size is one of [BOARD_SIZES]. *)
Theorem played_status_agrees (s : GameState) :
  played s ->
  boardSize s ∈ BOARD_SIZES
  /\ isBoard (board s)
  /\ length (board s) = boardSize s * boardSize s
  /\ (gameActive s = true <-> winnerMsg s = NoMsg)
  /\ (gameActive s = true ->
      checkWinner (board s) (boardSize s) X = false
      /\ checkWinner (board s) (boardSize s) O = false
      /\ exists i, board s !! i = Some Null)
  /\ (forall p, winnerMsg s = WinsMsg p ->
        checkWinner (board s) (boardSize s) p = true
        /\ checkWinner (board s) (boardSize s) (other p) = false
        /\ currentPlayer s = p)
  /\ (winnerMsg s = DrawMsg ->
      isDraw (board s) (boardSize s) = true
      /\ forall i, board s !! i <> Some Null).
Proof.
  intros Hplayed. pose proof (played_wellPlayed s Hplayed) as Hwp.
  pose proof (wellPlayed_active_empty s Hwp) as Hempty.
  destruct Hwp as (Hsz & Hb & Hlen & Hst & _).
  do 3 (split; [done|]). unfold statusConsistent in Hst.
  destruct (winnerMsg s) as [|p|] eqn:Hmsg.
  - destruct Hst as (Ha & HX & HO & Hfull).
    split; [done|]. split; [|split; [done|done]].
    intros _. do 2 (split; [done|]).
    destruct (emptyCells (board s)) as [|i rest] eqn:E; [by destruct Hempty|].
    exists i. apply In_emptyCells. rewrite E. by left.
  - destruct Hst as (Ha & Hp & Hq & Hcp).
    split; [split; [congruence|done]|]. split; [congruence|].
    split; [by intros ? [= <-]|done].
  - destruct Hst as (Ha & Hd).
    split; [split; [congruence|done]|]. split; [congruence|].
    split; [done|]. intros _. split; [done|].
    apply emptyCells_nil, every_truthy_no_empty.
    unfold isDraw in Hd. by destruct (every truthy (board s)).
Qed.

Lemma played_status_agrees_witness :
  let s := handleCellClick (handleCellClick mounted 4) 0 in
  boardSize s ∈ BOARD_SIZES
  /\ isBoard (board s)
  /\ length (board s) = boardSize s * boardSize s
  /\ (gameActive s = true <-> winnerMsg s = NoMsg)
  /\ (gameActive s = true ->
      checkWinner (board s) (boardSize s) X = false
      /\ checkWinner (board s) (boardSize s) O = false
      /\ exists i, board s !! i = Some Null)
  /\ (forall p, winnerMsg s = WinsMsg p ->
        checkWinner (board s) (boardSize s) p = true
        /\ checkWinner (board s) (boardSize s) (other p) = false
        /\ currentPlayer s = p)
  /\ (winnerMsg s = DrawMsg ->
      isDraw (board s) (boardSize s) = true
      /\ forall i, board s !! i <> Some Null).
Proof.
  intros s. apply (played_status_agrees s).
  unfold s. apply played_click; [apply played_click; [apply played_mounted|]|];
    simpl; lia.
Defined.

(** X4.  The marks alternate, [X] first: in every state reached through
    the rendered page [X] has as many marks as [O] when [X] is to move, and
    one more when [O] is to move; when the game is over, [X] has one more
    mark if [X] moved last and as many if [O] did. *)
Theorem played_marks_alternate (s : GameState) :
  played s ->
  (gameActive s = true -> currentPlayer s = X ->
   marksOf X (board s) = marksOf O (board s))
  /\ (gameActive s = true -> currentPlayer s = O ->
      marksOf X (board s) = S (marksOf O (board s)))
  /\ (gameActive s = false -> currentPlayer s = X ->
      marksOf X (board s) = S (marksOf O (board s)))
  /\ (gameActive s = false -> currentPlayer s = O ->
      marksOf X (board s) = marksOf O (board s)).
Proof.
  intros Hplayed.
  destruct (played_wellPlayed s Hplayed) as (_ & _ & _ & _ & Hpar).
  unfold turnParity, xMovedLast in Hpar.
  repeat split; intros Ha Hp; rewrite Ha, Hp in Hpar; simpl in Hpar; lia.
Qed.

Lemma played_marks_alternate_witness :
  let s := handleCellClick (handleCellClick (handleCellClick mounted 4) 0) 8 in
  (gameActive s = true -> currentPlayer s = X ->
   marksOf X (board s) = marksOf O (board s))
  /\ (gameActive s = true -> currentPlayer s = O ->
      marksOf X (board s) = S (marksOf O (board s)))
  /\ (gameActive s = false -> currentPlayer s = X ->
      marksOf X (board s) = S (marksOf O (board s)))
  /\ (gameActive s = false -> currentPlayer s = O ->
      marksOf X (board s) = marksOf O (board s)).
Proof.
  intros s. apply (played_marks_alternate s). unfold s.
  apply played_click;
    [apply played_click; [apply played_click; [apply played_mounted|]|]|];
    simpl; lia.
Defined.

(** X5.  The automated player is never stuck: in a state reached through
    the rendered page in which the game goes on, [makeAIMove] finds a move
    at every difficulty, known or not; the move is an empty cell, exactly
    that cell receives the mark of the player to move, and afterwards the
    game is over or the turn has passed to the other player. *)
Theorem makeAIMove_always_moves (u : Q) (s : GameState) :
  played s -> gameActive s = true -> (0 <= u < 1)%Q ->
  exists i,
    aiMove u s = Some i
    /\ board s !! i = Some Null
    /\ board (makeAIMove u s) = place (board s) i (currentPlayer s)
    /\ (gameActive (makeAIMove u s) = false
        \/ currentPlayer (makeAIMove u s) = other (currentPlayer s)).
Proof.
  intros Hplayed Ha Hu. pose proof (played_wellPlayed s Hplayed) as Hwp.
  pose proof (wellPlayed_active_empty s Hwp Ha) as Hne.
  destruct Hwp as (_ & Hb & _).
  destruct (aiMove_is_Some u s Hb Hu Hne) as [i Hi].
  pose proof (aiMove_inv u s i Hi) as Hnull.
  exists i. split; [done|]. split; [done|].
  unfold makeAIMove. rewrite Hi.
  assert (truthy (get (board s) i) = false) as Ht.
  { apply get_Null in Hnull. by rewrite Hnull. }
  destruct (handleCellClick_taken s i Ha Ht) as (Hnb & _ & _ & _ & Hcases).
  rewrite js_set_spread_place in Hnb;
    [|done|by eapply lookup_lt_Some].
  split; [done|].
  destruct Hcases as [(_ & Hg & _)|[(_ & _ & Hg & _)|(_ & _ & _ & _ & Hp & _)]];
    auto.
Qed.

Lemma makeAIMove_always_moves_witness :
  let s := handleCellClick (toggleAIMode (setAIDifficulty "unknown" mounted)) 4 in
  exists i,
    aiMove (1 # 3) s = Some i
    /\ board s !! i = Some Null
    /\ board (makeAIMove (1 # 3) s) = place (board s) i (currentPlayer s)
    /\ (gameActive (makeAIMove (1 # 3) s) = false
        \/ currentPlayer (makeAIMove (1 # 3) s) = other (currentPlayer s)).
Proof.
  intros s. apply (makeAIMove_always_moves (1 # 3) s).
  - unfold s. apply played_click; [|simpl; lia].
    apply played_toggle, played_difficulty, played_mounted.
  - reflexivity.
  - split; [discriminate|reflexivity].
Defined.

(** ** Counting moves and marks *)

Section Counting.
Implicit Types (s : GameState) (b : array) (p q : player) (i k n : nat).

Lemma length_emptyCells_fill_null n :
  length (emptyCells (Array_fill_null n)) = n.
Proof.
  unfold Array_fill_null. induction n as [|n IH]; [done|].
  simpl replicate. rewrite emptyCells_cons. simpl.
  by rewrite length_map, IH.
Qed.

Lemma acceptedClick_place s s' :
  isBoard (board s) -> acceptedClick s s' ->
  exists idx, board s !! idx = Some Null
              /\ board s' = place (board s) idx (currentPlayer s).
Proof.
  intros Hb (idx & Hidx & -> & Hne).
  destruct (negb (gameActive s) || truthy (get (board s) idx)) eqn:E.
  { by rewrite (handleCellClick_ignored s idx E) in Hne. }
  apply orb_false_iff in E as [Ea Ht]. apply negb_false_iff in Ea.
  exists idx. split; [by apply isBoard_not_truthy|].
  destruct (handleCellClick_taken s idx Ea Ht) as (Hnb & _).
  by rewrite Hnb, js_set_spread_place.
Qed.

Lemma acceptedClick_steps k :
  forall s s', isBoard (board s) -> nsteps acceptedClick k s s' ->
    isBoard (board s')
    /\ k + length (emptyCells (board s')) = length (emptyCells (board s))
    /\ marksOf X (board s') + marksOf O (board s')
       = marksOf X (board s) + marksOf O (board s) + k.
Proof.
  induction k as [|k IH]; intros s s' Hb Hsteps.
  - inversion Hsteps; subst. split; [done|]. split; lia.
  - inversion Hsteps as [|? ? y ? Hstep Hrest]; subst.
    destruct (acceptedClick_place s y Hb Hstep) as (idx & Hnull & Hy).
    assert (isBoard (board y)) as Hby by (rewrite Hy; by apply isBoard_place).
    destruct (IH y s' Hby Hrest) as (Hb' & Hempty & Hmarks).
    split; [done|]. rewrite Hy in Hempty, Hmarks.
    pose proof (emptyCells_place (board s) idx (currentPlayer s) Hnull).
    split; [lia|]. rewrite Hmarks.
    destruct (currentPlayer s).
    + rewrite (marksOf_place_same _ _ X Hnull).
      rewrite (marksOf_place_other _ _ O X) by done. lia.
    + rewrite (marksOf_place_same _ _ O Hnull).
      rewrite (marksOf_place_other _ _ X O) by done. lia.
Qed.

Lemma marksOf_indices p b :
  marksOf p b
  = length (List.filter (fun i => is_player p (get b i)) (seq 0 (length b))).
Proof.
  unfold marksOf. induction b as [|c b IH] using rev_ind; [done|].
  rewrite List.filter_app, length_app, IH, (length_app b). simpl length.
  rewrite Nat.add_1_r, seq_S, List.filter_app, length_app. f_equal.
  - f_equal. apply filter_ext_in. intros i Hi. apply in_seq in Hi.
    unfold get. by rewrite lookup_app_l by lia.
  - simpl. unfold get. rewrite lookup_app_r, Nat.sub_diag by done. simpl.
    by destruct c as [| | |[]], p.
Qed.

Lemma NoDup_candidateLine size line :
  line ∈ candidateLines size -> NoDup line.
Proof.
  unfold candidateLines. rewrite !elem_of_app.
  change (map ?f ?l) with (f <$> l).
  rewrite !list_elem_of_fmap, !elem_of_cons.
  intros [(r & -> & _)|[(c & -> & Hc)|[->|[->|H]]]];
    [| | | |by apply elem_of_nil in H];
    unfold rowLine, colLine, mainDiagonal, antiDiagonal, cellIndex;
    change (map ?f ?l) with (f <$> l);
    (apply NoDup_fmap_2_strong; [|apply NoDup_seq]);
    intros x y Hx Hy Heq;
    apply list_elem_of_In, in_seq in Hx; apply list_elem_of_In, in_seq in Hy;
    nia.
Qed.

Lemma checkWinner_marks b size p :
  0 < size -> checkWinner b size p = true -> size <= marksOf p b.
Proof.
  intros Hsize Hwin. apply checkWinner_hasLine in Hwin; [|done].
  destruct Hwin as (line & Hin & Hfull).
  rewrite <- (candidateLines_length size line Hin), marksOf_indices.
  apply submseteq_length, NoDup_submseteq;
    [by apply (NoDup_candidateLine size)|].
  intros i Hi. specialize (Hfull i Hi).
  apply list_elem_of_In, filter_In. split.
  - apply in_seq. apply lookup_lt_Some in Hfull. lia.
  - by apply is_player_true, get_Mark.
Qed.

(** A move that completes a line finds all but one of its marks on the
    board. *)
Lemma completes_marks s p i :
  0 < boardSize s -> completes s p i = true ->
  boardSize s <= S (marksOf p (board s)).
Proof.
  intros Hsize Hc. apply completes_true in Hc as [Hnull Hwin].
  apply checkWinner_marks in Hwin; [|done].
  by rewrite marksOf_place_same in Hwin.
Qed.
End Counting.

(** X6.  Every click that changes the state fills exactly one empty cell:
    after [k] such clicks on a fresh board of any size, [k] cells are
    marked and [size * size - k] are empty, so no game takes more than
    [size * size] moves. *)
Theorem accepted_clicks_fill_board (n k : nat) (ai : bool) (d : string)
    (s : GameState) :
  nsteps acceptedClick k (newGame n ai d) s ->
  isBoard (board s)
  /\ k + length (emptyCells (board s)) = n * n
  /\ marksOf X (board s) + marksOf O (board s) = k
  /\ k <= n * n.
Proof.
  intros Hsteps.
  destruct (acceptedClick_steps k (newGame n ai d) s
              (isBoard_fill_null (n * n)) Hsteps)
    as (Hb & Hempty & Hmarks).
  simpl in Hempty, Hmarks.
  rewrite length_emptyCells_fill_null in Hempty.
  rewrite !marksOf_fill_null in Hmarks.
  split; [done|]. split; [done|]. split; lia.
Qed.

Lemma accepted_clicks_fill_board_witness :
  isBoard (board (handleCellClick (newGame 3 false "easy") 4))
  /\ 1 + length (emptyCells (board (handleCellClick (newGame 3 false "easy") 4)))
     = 3 * 3
  /\ marksOf X (board (handleCellClick (newGame 3 false "easy") 4))
     + marksOf O (board (handleCellClick (newGame 3 false "easy") 4)) = 1
  /\ 1 <= 3 * 3.
Proof.
  apply (accepted_clicks_fill_board 3 1 false "easy").
  eapply nsteps_l; [|apply nsteps_O].
  exists 4. split; [simpl; lia|]. split; [reflexivity|discriminate].
Defined.

(** X7.  A mark placed on an empty cell changes the winner check only for
    the player who placed it, and only from no line to a line: the check
    for the other player is what it was, and a line the mover had stays. *)
Theorem checkWinner_after_mark (b : array) (size i : nat) (q : player) :
  0 < size -> b !! i = Some Null ->
  checkWinner (place b i q) size (other q) = checkWinner b size (other q)
  /\ (checkWinner b size q = true -> checkWinner (place b i q) size q = true).
Proof.
  intros Hsize Hnull. split.
  - apply checkWinner_place_other; [done|by destruct q|].
    apply get_Null in Hnull. by rewrite Hnull.
  - by apply checkWinner_place_same.
Qed.

Lemma checkWinner_after_mark_witness :
  checkWinner (place [Mark X; Mark X; Null; Mark O; Mark O; Null; Null; Null;
                      Null] 2 X) 3 (other X)
  = checkWinner [Mark X; Mark X; Null; Mark O; Mark O; Null; Null; Null; Null]
                3 (other X)
  /\ (checkWinner [Mark X; Mark X; Null; Mark O; Mark O; Null; Null; Null; Null]
                  3 X = true ->
      checkWinner (place [Mark X; Mark X; Null; Mark O; Mark O; Null; Null;
                          Null; Null] 2 X) 3 X = true).
Proof.
  apply (checkWinner_after_mark
           [Mark X; Mark X; Null; Mark O; Mark O; Null; Null; Null; Null] 3 2 X).
  - lia.
  - reflexivity.
Defined.

(** X8.  A win takes a whole line of marks: when [checkWinner] answers
    [true] for a player on a board of side [size >= 1], that player has at
    least [size] marks on the board. *)
Theorem checkWinner_needs_size_marks (arr : array) (size : nat) (p : player) :
  0 < size -> checkWinner arr size p = true -> size <= marksOf p arr.
Proof. intros Hsize Hwin. by apply checkWinner_marks. Qed.

Lemma checkWinner_needs_size_marks_witness :
  3 <= marksOf X [Mark X; Mark O; Mark O; Null; Mark X; Null; Null; Null; Mark X].
Proof.
  apply (checkWinner_needs_size_marks
           [Mark X; Mark O; Mark O; Null; Mark X; Null; Null; Null; Mark X] 3 X).
  - lia.
  - reflexivity.
Defined.

(** ** The range of the scores *)

Section ScoreRange.
Implicit Types (b : array) (d lo hi : Z) (p ai : player).

Lemma foldr_smax_bounded lo hi (l : list score) :
  l <> [] ->
  Forall (fun s => exists z, s = Fin z /\ (lo <= z <= hi)%Z) l ->
  exists z, foldr smax NegInf l = Fin z /\ (lo <= z <= hi)%Z.
Proof.
  intros Hne Hall. induction Hall as [|s l (z & -> & Hz) Hall IH]; [done|].
  simpl. destruct l as [|s' l]; [simpl; eauto|].
  destruct IH as (z' & -> & Hz'); [done|]. simpl.
  exists (Z.max z z'). split; [done|lia].
Qed.

Lemma foldr_smin_bounded lo hi (l : list score) :
  l <> [] ->
  Forall (fun s => exists z, s = Fin z /\ (lo <= z <= hi)%Z) l ->
  exists z, foldr smin PosInf l = Fin z /\ (lo <= z <= hi)%Z.
Proof.
  intros Hne Hall. induction Hall as [|s l (z & -> & Hz) Hall IH]; [done|].
  simpl. destruct l as [|s' l]; [simpl; eauto|].
  destruct IH as (z' & -> & Hz'); [done|]. simpl.
  exists (Z.min z z'). split; [done|lia].
Qed.

(** The positions one ply ahead of a board that is not full, all scored
    within [lo] and [hi]. *)
Lemma children_bounded size ai plies b d lo hi :
  isBoard b -> every truthy b = false ->
  (forall p nx i, In i (emptyCells b) ->
     exists z, specMinimax ai size plies (place b i p) (d + 1) nx = Fin z
               /\ (lo <= z <= hi)%Z) ->
  forall m : bool,
  exists z,
    (if m then
       foldr smax NegInf
         (map (fun i => specMinimax ai size plies (place b i ai) (d + 1) false)
              (emptyCells b))
     else
       foldr smin PosInf
         (map (fun i => specMinimax ai size plies (place b i (other ai))
                                    (d + 1) true)
              (emptyCells b))) = Fin z
    /\ (lo <= z <= hi)%Z.
Proof.
  intros Hb Hfull Hchild m.
  destruct (isBoard_not_full b Hb Hfull) as [i0 Hi0].
  apply In_emptyCells in Hi0.
  assert (emptyCells b <> []) as Hne by (by destruct (emptyCells b)).
  destruct m.
  - apply foldr_smax_bounded; [by destruct (emptyCells b)|].
    apply Forall_forall. intros s Hs.
    apply list_elem_of_In, in_map_iff in Hs as (i & <- & Hi). by apply Hchild.
  - apply foldr_smin_bounded; [by destruct (emptyCells b)|].
    apply Forall_forall. intros s Hs.
    apply list_elem_of_In, in_map_iff in Hs as (i & <- & Hi). by apply Hchild.
Qed.

Lemma specMinimax_bounded size ai plies :
  forall b d m,
    isBoard b -> length (emptyCells b) <= plies ->
    (d + Z.of_nat (length (emptyCells b)) <= 10)%Z ->
    exists z, specMinimax ai size plies b d m = Fin z
              /\ (d - 10 <= z <= 10 - d)%Z.
Proof.
  induction plies as [|n IH]; intros b d m Hb Hplies Hd;
    rewrite specMinimax_eq;
    (destruct (checkWinner b size ai); [eexists; split; [done|lia]|]);
    (destruct (checkWinner b size (other ai)); [eexists; split; [done|lia]|]);
    (destruct (every truthy b) eqn:E; [eexists; split; [done|lia]|]).
  - destruct (isBoard_not_full b Hb E) as [i Hi]. apply In_emptyCells in Hi.
    destruct (emptyCells b); [done|simpl in Hplies; lia].
  - apply children_bounded; [done|done|].
    intros p nx i Hi. apply In_emptyCells in Hi.
    pose proof (emptyCells_place b i p Hi) as Hlen.
    destruct (IH (place b i p) (d + 1)%Z nx) as (z & Hz & Hrange);
      [by apply isBoard_place|lia|lia|].
    exists z. split; [done|lia].
Qed.

(** A position that is not a win of [ai] scores below the win. *)
Lemma specMinimax_below_win size ai plies b d m :
  isBoard b -> length (emptyCells b) <= plies ->
  (d + Z.of_nat (length (emptyCells b)) <= 10)%Z -> (d < 10)%Z ->
  checkWinner b size ai = false ->
  exists z, specMinimax ai size plies b d m = Fin z /\ (z < 10 - d)%Z.
Proof.
  intros Hb Hplies Hd Hd' Hwin. rewrite specMinimax_eq, Hwin.
  destruct (checkWinner b size (other ai)); [eexists; split; [done|lia]|].
  destruct (every truthy b) eqn:E; [eexists; split; [done|lia]|].
  destruct plies as [|n].
  { destruct (isBoard_not_full b Hb E) as [i Hi]. apply In_emptyCells in Hi.
    destruct (emptyCells b); [done|simpl in Hplies; lia]. }
  destruct (children_bounded size ai n b d (d - 9) (9 - d) Hb E) with (m := m)
    as (z & Hz & Hrange).
  { intros p nx i Hi. apply In_emptyCells in Hi.
    pose proof (emptyCells_place b i p Hi) as Hlen.
    destruct (specMinimax_bounded size ai n (place b i p) (d + 1)%Z nx)
      as (z & Hz & Hrange); [by apply isBoard_place|lia|lia|].
    exists z. split; [done|lia]. }
  exists z. split; [done|lia].
Qed.
End ScoreRange.

(** X9.  On a board whose empty cells number at most [10 - depth],
    [minimax] returns a finite score between [depth - 10] and
    [10 - depth]. *)
Theorem minimax_score_in_range (size fuel : nat) (h : heap) (arr : loc)
    (b : array) (depth : Z) (isMaximizing : bool) :
  h !! arr = Some b -> isBoard b ->
  length (emptyCells b) < fuel ->
  (depth + Z.of_nat (length (emptyCells b)) <= 10)%Z ->
  exists z,
    minimax size fuel h arr depth isMaximizing = Some (Fin z, h)
    /\ (depth - 10 <= z <= 10 - depth)%Z.
Proof.
  intros Hl Hb Hfuel Hd.
  rewrite (minimax_specMinimax size fuel (length (emptyCells b)) h arr b)
    by done.
  destruct (specMinimax_bounded size O (length (emptyCells b)) b depth
              isMaximizing Hb) as (z & -> & Hz); [done|done|].
  by exists z.
Qed.

Lemma minimax_score_in_range_witness :
  exists z,
    minimax 3 4 [[Mark O; Mark X; Null; Null; Mark X; Null; Mark X; Mark O;
                  Mark O]] 0 1 true
    = Some (Fin z, [[Mark O; Mark X; Null; Null; Mark X; Null; Mark X; Mark O;
                     Mark O]])
    /\ (1 - 10 <= z <= 10 - 1)%Z.
Proof.
  apply (minimax_score_in_range 3 4 _ 0
           [Mark O; Mark X; Null; Null; Mark X; Null; Mark X; Mark O; Mark O]).
  - reflexivity.
  - solve_isBoard.
  - simpl. lia.
  - simpl. lia.
Defined.

(** X10.  The hard selector takes a win that is on the board: when the
    board has at most ten empty cells and [O] completes a line at some
    empty cell, [getBestMove] returns an empty cell at which [O] completes
    a line. *)
Theorem getBestMove_takes_win (s : GameState) :
  isBoard (board s) -> length (emptyCells (board s)) <= 10 ->
  (exists i, board s !! i = Some Null
             /\ checkWinner (place (board s) i O) (boardSize s) O = true) ->
  exists k,
    getBestMove s = Some k /\ board s !! k = Some Null
    /\ checkWinner (place (board s) k O) (boardSize s) O = true.
Proof.
  intros Hb Hten (i & Hi & Hwin).
  destruct (getBestMove_first_best s Hb (ex_intro _ i Hi))
    as (k & Hk & Hnull & Hle & _).
  exists k. split; [done|]. split; [done|].
  destruct (checkWinner (place (board s) k O) (boardSize s) O) eqn:EW; [done|].
  exfalso. specialize (Hle i Hi).
  rewrite !candidateScore_place in Hle
    by (done || by eapply lookup_lt_Some).
  rewrite (specMinimax_eq _ _ _ (place (board s) i O)), Hwin in Hle.
  pose proof (emptyCells_place (board s) k O Hnull) as Hlen.
  pose proof (length_emptyCells_le (board s)) as Hlen'.
  destruct (specMinimax_below_win (boardSize s) O (length (board s))
              (place (board s) k O) 0 false) as (z & Hz & Hlt);
    [by apply isBoard_place|lia|lia|lia|done|].
  rewrite Hz in Hle. unfold sle in Hle. simpl in Hle.
  apply Z.ltb_ge in Hle. lia.
Qed.

Lemma getBestMove_takes_win_witness :
  let s := mkState [Mark O; Mark O; Null; Mark X; Mark X; Null; Null; Null;
                    Mark X] O 0 0 true true 3 "hard" NoMsg in
  exists k,
    getBestMove s = Some k /\ board s !! k = Some Null
    /\ checkWinner (place (board s) k O) (boardSize s) O = true.
Proof.
  intros s. apply (getBestMove_takes_win s).
  - solve_isBoard.
  - simpl. lia.
  - exists 2. split; reflexivity.
Defined.

(** X11.  The easy selector can play every empty cell of a board of fewer
    than [2^32] cells: for each empty cell there is a Number in [[0, 1)]
    for which [getRandomMove] returns that cell when [Math.random()]
    returns this Number. *)
Theorem getRandomMove_reaches_every_cell (s : GameState) (k : nat) :
  board s !! k = Some Null ->
  (Z.of_nat (length (board s)) < 2 ^ 32)%Z ->
  exists u,
    (0 <= u < 1)%Q /\ (Math_random u == u)%Q /\ getRandomMove u s = Some k.
Proof.
  intros Hk Hbig.
  apply elem_of_emptyCells, list_elem_of_lookup_1 in Hk as [pos Hpos].
  pose proof (lookup_lt_Some _ _ _ Hpos) as Hlt.
  assert (length (emptyCells (board s)) <= length (board s)) as Hle.
  { unfold emptyCells.
    etransitivity; [apply List.filter_length_le|]. by rewrite length_seq. }
  set (n := length (emptyCells (board s))) in *.
  destruct (floorMul_onto n pos Hlt) as (u & Hu & Hex & Hfl); [lia|].
  exists u. split; [done|]. split; [done|].
  unfold getRandomMove. rewrite emptyIndices_emptyCells. fold n.
  destruct (Nat.eqb_spec n 0) as [|_]; [lia|].
  by rewrite Hfl.
Qed.

Lemma getRandomMove_reaches_every_cell_witness :
  exists u,
    (0 <= u < 1)%Q
    /\ (Math_random u == u)%Q
    /\ getRandomMove u
         (mkState [Mark X; Null; Null; Null; Mark O; Null; Null; Null; Mark X]
                  O 0 0 true true 3 "easy" NoMsg) = Some 5.
Proof.
  apply (getRandomMove_reaches_every_cell
           (mkState [Mark X; Null; Null; Null; Mark O; Null; Null; Null; Mark X]
                    O 0 0 true true 3 "easy" NoMsg) 5).
  - reflexivity.
  - reflexivity.
Defined.

(** X12.  [renderBoard] and [handleCellClick] agree: the cell rendered at
    position [i] carries the index [i] and shows the content of cell [i],
    and its cursor is the pointer exactly when a click on it changes the
    state; every cell of the board that is not a hole is rendered. *)
Theorem renderBoard_pointer_iff_click_taken (s : GameState) (i : nat)
    (v : cellView) :
  renderBoard s !! i = Some (Some v) ->
  viewKey v = i
  /\ viewText v = get (board s) i
  /\ (viewCursor v = "pointer" <-> handleCellClick s i <> s)
  /\ (viewCursor v = "not-allowed" <-> handleCellClick s i = s)
  /\ length (renderBoard s) = length (board s).
Proof.
  unfold renderBoard. rewrite list_lookup_imap, length_imap.
  destruct (board s !! i) as [c|] eqn:Hc; [|done]. simpl.
  assert (get (board s) i = match c with Hole => Undefined | _ => c end) as Hget
    by (unfold get; by rewrite Hc).
  destruct (truthy c || negb (gameActive s)) eqn:E.
  - assert (handleCellClick s i = s) as Hsame.
    { apply handleCellClick_ignored. rewrite Hget.
      apply orb_true_iff in E as [E|E].
      - destruct c; try done. apply orb_true_r.
      - by rewrite E. }
    destruct c; intros [= <-]; simpl in *; rewrite ?E, ?Hget;
      repeat split; try done.
  - apply orb_false_iff in E as [Et Ea]. apply negb_false_iff in Ea.
    assert (handleCellClick s i <> s) as Hchg.
    { apply handleCellClick_changes; [done|]. rewrite Hget. by destruct c. }
    destruct c; intros [= <-]; simpl in *; rewrite ?Ea, ?Hget;
      repeat split; try done.
Qed.

Lemma renderBoard_pointer_iff_click_taken_witness :
  let s := handleCellClick mounted 4 in
  let v := mkView 0 "pointer" "rgba(255,255,255,0.2)" "#333" Null in
  viewKey v = 0
  /\ viewText v = get (board s) 0
  /\ (viewCursor v = "pointer" <-> handleCellClick s 0 <> s)
  /\ (viewCursor v = "not-allowed" <-> handleCellClick s 0 = s)
  /\ length (renderBoard s) = length (board s).
Proof.
  intros s v. apply (renderBoard_pointer_iff_click_taken s 0 v). reflexivity.
Defined.

(** X13.  The medium selector leaves its centre-or-random rule only when
    a line can be completed: while [O] and [X] each have fewer than
    [size - 1] marks on the board, neither the win loop nor the block loop
    finds a cell, and the move is the cell at index [size * size / 2] if
    that is empty and the random empty cell otherwise. *)
Theorem getMediumMove_centre_first (u : Q) (s : GameState) :
  S (marksOf O (board s)) < boardSize s ->
  S (marksOf X (board s)) < boardSize s ->
  getMediumMove u s
  = if is_null (get (board s) (boardSize s * boardSize s / 2))
    then Some (boardSize s * boardSize s / 2)
    else getRandomMove u s.
Proof.
  intros HO HX. unfold getMediumMove.
  assert (0 < boardSize s) as Hsize by lia.
  rewrite (find_completes_None s O), (find_completes_None s X); [done| |].
  - intros i. apply not_true_iff_false. intros Hc.
    pose proof (completes_marks s X i Hsize Hc). lia.
  - intros i. apply not_true_iff_false. intros Hc.
    pose proof (completes_marks s O i Hsize Hc). lia.
Qed.

Lemma getMediumMove_centre_first_witness :
  getMediumMove (1 # 2)
    (handleCellClick (toggleAIMode (setBoardSize 4 mounted)) 5)
  = if is_null (get (board (handleCellClick
                              (toggleAIMode (setBoardSize 4 mounted)) 5))
                    (4 * 4 / 2))
    then Some (4 * 4 / 2)
    else getRandomMove (1 # 2)
           (handleCellClick (toggleAIMode (setBoardSize 4 mounted)) 5).
Proof.
  apply (getMediumMove_centre_first (1 # 2)
           (handleCellClick (toggleAIMode (setBoardSize 4 mounted)) 5));
    vm_compute; lia.
Defined.

(** X14.  [handleCellClick] has no bounds check: while the game goes on, a
    click at an index at or past the end of the board is taken.  The board
    grows to length [idx + 1], the new last cell holds the mover's mark,
    the cells that existed read as before and the cells in between read
    [undefined]. *)
Theorem handleCellClick_beyond_board (s : GameState) (idx : nat) :
  gameActive s = true -> length (board s) <= idx ->
  handleCellClick s idx <> s
  /\ length (board (handleCellClick s idx)) = S idx
  /\ get (board (handleCellClick s idx)) idx = Mark (currentPlayer s)
  /\ (forall j, j < length (board s) ->
        get (board (handleCellClick s idx)) j = get (board s) j)
  /\ (forall j, length (board s) <= j < idx ->
        get (board (handleCellClick s idx)) j = Undefined).
Proof.
  intros Ha Hidx.
  assert (truthy (get (board s) idx) = false) as Ht by (by rewrite get_ge).
  destruct (handleCellClick_taken s idx Ha Ht) as (Hnb & _).
  split; [by apply handleCellClick_changes|]. rewrite Hnb.
  split; [rewrite length_js_set, length_spread; lia|].
  split; [by rewrite get_js_set_eq|]. split.
  - intros j Hj. rewrite get_js_set_ne by lia. apply get_spread.
  - intros j Hj. rewrite get_js_set_ne by lia.
    rewrite get_spread. apply get_ge. lia.
Qed.

Lemma handleCellClick_beyond_board_witness :
  handleCellClick mounted 11 <> mounted
  /\ length (board (handleCellClick mounted 11)) = 12
  /\ get (board (handleCellClick mounted 11)) 11 = Mark (currentPlayer mounted)
  /\ (forall j, j < length (board mounted) ->
        get (board (handleCellClick mounted 11)) j = get (board mounted) j)
  /\ (forall j, length (board mounted) <= j < 11 ->
        get (board (handleCellClick mounted 11)) j = Undefined).
Proof.
  apply (handleCellClick_beyond_board mounted 11).
  - reflexivity.
  - simpl. lia.
Defined.

(** ** The working copies of the hard selector *)

Section Copies.
Implicit Types (h ext : heap) (board : loc) (b : array).

(** The loop of [getBestMove] leaves one copy per candidate behind, each
    holding the board with [O]'s mark on the candidate. *)
Lemma getBestMove_loop_copies size h board b :
  h !! board = Some b ->
  forall idxs bestScore move ext,
    for_each idxs
      (fun i '(bestScore, move, h) =>
         if is_null (get (deref h board) i) then
           let '(newBoard, h1) := alloc h (spread (deref h board)) in
           let h2 := store h1 newBoard i (Mark O) in
           match minimax size (S (length (deref h2 newBoard))) h2 newBoard
                         0 false with
           | Some (s, h3) =>
               if sgt s bestScore then Some (s, Some i, h3)
               else Some (bestScore, move, h3)
           | None => None
           end
         else Some (bestScore, move, h))
      (bestScore, move, h ++ ext)
    = Some (fold_left (keepBest (candidateScore size b))
              (List.filter (fun i => is_null (get b i)) idxs)
              (bestScore, move),
            h ++ ext
              ++ map (fun i => js_set (spread b) i (Mark O))
                     (List.filter (fun i => is_null (get b i)) idxs)).
Proof.
  intros Hl idxs.
  induction idxs as [|i idxs IH]; intros bestScore move ext.
  { simpl. by rewrite app_nil_r. }
  assert ((h ++ ext) !! board = Some b) as Hl'.
  { rewrite lookup_app_l; [done|]. by eapply lookup_lt_Some. }
  cbn [for_each List.filter]. rewrite (deref_lookup _ _ _ Hl').
  destruct (is_null (get b i)) eqn:E; [|exact (IH bestScore move ext)].
  cbn [fold_left map].
  unfold alloc. cbv beta match zeta.
  set (nb := js_set (spread b) i (Mark O)).
  assert (store ((h ++ ext) ++ [spread b]) (length (h ++ ext)) i (Mark O)
          = h ++ (ext ++ [nb])) as Hstore.
  { unfold store. rewrite lookup_app_r, Nat.sub_diag by done. simpl.
    rewrite insert_app_r_alt, Nat.sub_diag by done. simpl.
    by rewrite <- app_assoc. }
  rewrite Hstore.
  assert ((h ++ ext ++ [nb]) !! length (h ++ ext) = Some nb) as Hnb.
  { rewrite app_assoc. rewrite lookup_app_r, Nat.sub_diag by done. done. }
  rewrite (deref_lookup _ _ _ Hnb).
  apply is_null_true, get_Null in E.
  assert (length nb = length b) as Hlen.
  { unfold nb. rewrite length_js_set, length_spread.
    apply lookup_lt_Some in E. lia. }
  rewrite (minimax_specMinimax size _ (length b) _ _ nb 0 false Hnb);
    [|pose proof (length_emptyCells_le nb); lia
     |pose proof (length_emptyCells_le nb); lia].
  change (specMinimax O size (length b) nb 0 false)
    with (candidateScore size b i).
  change (keepBest (candidateScore size b) (bestScore, move) i)
    with (if sgt (candidateScore size b i) bestScore
          then (candidateScore size b i, Some i) else (bestScore, move)).
  replace (h ++ ext ++ nb :: map (fun i => js_set (spread b) i (Mark O))
                            (List.filter (fun i => is_null (get b i)) idxs))
    with (h ++ (ext ++ [nb])
            ++ map (fun i => js_set (spread b) i (Mark O))
                 (List.filter (fun i => is_null (get b i)) idxs))
    by (by rewrite <- (app_assoc ext)).
  destruct (sgt (candidateScore size b i) bestScore).
  - exact (IH (candidateScore size b i) (Some i) (ext ++ [nb])).
  - exact (IH bestScore move (ext ++ [nb])).
Qed.
End Copies.

(** X15.  [getBestMove] makes one copy of the board per empty cell and
    nothing else: at return the heap is the heap at the call followed by
    one array per empty cell, in scan order, each holding the board with
    [O]'s mark on that cell (the marks written by the search are gone). *)
Theorem getBestMove_heap_copies (size : nat) (h : heap) (board : loc)
    (b : array) :
  h !! board = Some b ->
  exists move,
    getBestMove_heap size h board
    = Some (move,
            h ++ map (fun i => js_set (spread b) i (Mark O)) (emptyCells b)).
Proof.
  intros Hl. unfold getBestMove_heap.
  pose proof (getBestMove_loop_copies size h board b Hl
                (seq 0 (length (deref h board))) NegInf None []) as Hloop.
  rewrite app_nil_r, (deref_lookup _ _ _ Hl) in Hloop. simpl app in Hloop.
  rewrite (deref_lookup _ _ _ Hl).
  set (r := for_each _ _ _).
  assert (r = Some (fold_left (keepBest (candidateScore size b))
                      (emptyCells b) (NegInf, None),
                    h ++ map (fun i => js_set (spread b) i (Mark O))
                           (emptyCells b))) as ->
    by exact Hloop.
  destruct (fold_left _ _ _) as [bs mv]. by exists mv.
Qed.

Lemma getBestMove_heap_copies_witness :
  exists move,
    getBestMove_heap 3 [[Mark X; Mark O; Mark X; Mark X; Mark O; Null; Mark O;
                         Mark X; Null]] 0
    = Some (move,
            [[Mark X; Mark O; Mark X; Mark X; Mark O; Null; Mark O; Mark X;
              Null]]
            ++ map (fun i =>
                      js_set (spread [Mark X; Mark O; Mark X; Mark X; Mark O;
                                      Null; Mark O; Mark X; Null]) i (Mark O))
                   (emptyCells [Mark X; Mark O; Mark X; Mark X; Mark O; Null;
                                Mark O; Mark X; Null])).
Proof.
  apply (getBestMove_heap_copies 3 _ 0
           [Mark X; Mark O; Mark X; Mark X; Mark O; Null; Mark O; Mark X; Null]).
  reflexivity.
Defined.
